(** * simulapc: the self-resizing circular queue monitor

    A shallow embedding of [CircularQueueMonitor] and [consumer_function]
    from [simulapc.cpp], followed by the properties of the queue stated in
    the specification.  The rest of [simulapc.cpp] ([producer_function],
    the loop of [consumer_function], the command line of [main]) and the
    page replacement simulator of the repository are embedded after them,
    with properties of their own.

    Conventions of the embedding.
    - [size_t] is a 64-bit unsigned integer, modelled as a [Z] in
      [0, 2^64) with its wrap-around written out ([size_add], [size_sub],
      [size_mul]).
    - [vector<int>] is a [list Z].  [operator[]] outside the vector and
      [%] by zero have no defined behaviour: the embedding stops with
      [Abort undefined_behavior].  The sized constructor throws
      [std::length_error] above [max_size()]; nothing catches it, so the
      embedding stops with [Abort length_error].
    - Every public member function runs under the mutex, so a completed
      call is one atomic transition of the monitor state.  A call whose
      wait condition is false suspends before touching the state: [Block].
    - The log stream and the notifications sent to the two condition
      variables are effects; they are recorded in the state as the text
      written so far and the list of notifications issued so far. *)

From Stdlib Require Import ZArith Lia Ascii String DecimalString.
From stdpp Require Import base tactics option list.

Local Open Scope Z_scope.

(** ** Outcomes of a call *)

Inductive fault : Type :=
  | length_error          (* std::length_error thrown by vector<int>(n) *)
  | undefined_behavior.   (* index outside a vector, or modulo zero *)

Inductive outcome (A : Type) : Type :=
  | Ret (a : A)           (* the call completed *)
  | Block                 (* the caller is suspended on a condition variable *)
  | Abort (e : fault).    (* the process does not survive the call *)

Arguments Ret {A} a.
Arguments Block {A}.
Arguments Abort {A} e.

Definition outcome_bind {A B : Type} (m : outcome A) (f : A → outcome B) : outcome B :=
  match m with
  | Ret a => f a
  | Block => Block
  | Abort e => Abort e
  end.

(** An operation of the language that has no defined result on some inputs. *)
Definition defined {A : Type} (o : option A) : outcome A :=
  match o with
  | Some a => Ret a
  | None => Abort undefined_behavior
  end.

(** ** size_t arithmetic *)

Definition size_wrap (z : Z) : Z := z mod 2 ^ 64.
Definition size_add (a b : Z) : Z := size_wrap (a + b).
Definition size_sub (a b : Z) : Z := size_wrap (a - b).
Definition size_mul (a b : Z) : Z := size_wrap (a * b).

(** [a % b] on unsigned operands; no result when [b] is zero.  The two
    divisions of the source, [capacity / 4] and [capacity / 2], have a
    constant divisor and are written with [/] directly. *)
Definition size_rem (a b : Z) : option Z :=
  if decide (b = 0) then None else Some (a mod b).

(** ** vector<int> *)

Definition vector_get (v : list Z) (i : Z) : option Z :=
  v !! Z.to_nat i.

Definition vector_set (v : list Z) (i : Z) (x : Z) : option (list Z) :=
  if decide (i < Z.of_nat (length v)) then Some (<[Z.to_nat i := x]> v) else None.

(** ** Text written to the log *)

Definition endl : string := String (ascii_of_nat 10) EmptyString.

(** [operator<<] on a [size_t]: the decimal digits of the value. *)
Definition decimal (n : Z) : string :=
  NilEmpty.string_of_uint (N.to_uint (Z.to_N n)).

(** ** Condition variables *)

Inductive condvar : Type := not_full | not_empty.

Inductive signal : Type :=
  | notify_one (cv : condvar)
  | notify_all (cv : condvar).

(** ** The monitor *)

Module CircularQueueMonitor.

Record monitor : Type := Monitor {
  buffer : list Z;
  capacity : Z;
  front : Z;
  rear : Z;
  count : Z;
  producers_done : bool;
  log_file : string;          (* text written to the ofstream so far *)
  notified : list signal      (* notifications issued so far, oldest first *)
}.

Definition set_buffer (v : list Z) (s : monitor) : monitor :=
  Monitor v (capacity s) (front s) (rear s) (count s) (producers_done s)
          (log_file s) (notified s).
Definition set_capacity (n : Z) (s : monitor) : monitor :=
  Monitor (buffer s) n (front s) (rear s) (count s) (producers_done s)
          (log_file s) (notified s).
Definition set_front (n : Z) (s : monitor) : monitor :=
  Monitor (buffer s) (capacity s) n (rear s) (count s) (producers_done s)
          (log_file s) (notified s).
Definition set_rear (n : Z) (s : monitor) : monitor :=
  Monitor (buffer s) (capacity s) (front s) n (count s) (producers_done s)
          (log_file s) (notified s).
Definition set_count (n : Z) (s : monitor) : monitor :=
  Monitor (buffer s) (capacity s) (front s) (rear s) n (producers_done s)
          (log_file s) (notified s).
Definition set_done (b : bool) (s : monitor) : monitor :=
  Monitor (buffer s) (capacity s) (front s) (rear s) (count s) b
          (log_file s) (notified s).
Definition set_log (t : string) (s : monitor) : monitor :=
  Monitor (buffer s) (capacity s) (front s) (rear s) (count s) (producers_done s)
          t (notified s).
Definition set_notified (l : list signal) (s : monitor) : monitor :=
  Monitor (buffer s) (capacity s) (front s) (rear s) (count s) (producers_done s)
          (log_file s) l.

(** *** Member functions as state transformers *)

Definition M (A : Type) : Type := monitor → outcome (A * monitor).

Global Instance monitor_ret : MRet M := λ A a s, Ret (a, s).

Global Instance monitor_bind : MBind M := λ A B f m s,
  match m s with
  | Ret (a, s') => f a s'
  | Block => Block
  | Abort e => Abort e
  end.

Definition gets {A : Type} (f : monitor → A) : M A := λ s, Ret (f s, s).
Definition modify (f : monitor → monitor) : M unit := λ s, Ret (tt, f s).
Definition lift {A : Type} (m : outcome A) : M A :=
  λ s, outcome_bind m (λ a, Ret (a, s)).

(** [cv.wait(lock, pred)] and [while (!pred) cv.wait(lock)], seen from the
    state in which the caller holds the lock: it goes on when [pred] holds
    and is suspended otherwise. *)
Definition wait (cv : condvar) (pred : monitor → bool) : M unit :=
  λ s, if pred s then Ret (tt, s) else Block.

Definition notify (sg : signal) : M unit :=
  modify (λ s, set_notified (notified s ++ [sg]) s).

Definition write_log (t : string) : M unit :=
  modify (λ s, set_log (String.append (log_file s) t) s).

Section WithAllocator.

(** [vector<int>::max_size()], the largest size the sized constructor
    accepts.  Its value is the library's (libstdc++ on LP64 has
    [2^61 - 1]); every implementation keeps it at most
    [PTRDIFF_MAX / sizeof(int)]. *)
Variable max_size : Z.

(** [vector<int> v(n)]: [n] value-initialised elements. *)
Definition vector_new (n : Z) : outcome (list Z) :=
  if decide (n ≤ max_size) then Ret (replicate (Z.to_nat n) 0) else Abort length_error.

(** The copy loop of [resize],
    [for (i = 0; i < count; ++i) new_buffer[i] = buffer[(front + i) % capacity]],
    by recursion on the number [n] of iterations left. *)
Fixpoint copy_elements (n : nat) (i : Z) (s : monitor) (new_buffer : list Z)
  : outcome (list Z) :=
  match n with
  | O => Ret new_buffer
  | S n' =>
      outcome_bind (defined (size_rem (size_add (front s) i) (capacity s))) (λ j,
      outcome_bind (defined (vector_get (buffer s) j)) (λ x,
      outcome_bind (defined (vector_set new_buffer i x)) (λ new_buffer',
      copy_elements n' (size_add i 1) s new_buffer')))
  end.

Definition resize (new_capacity : Z) : M unit :=
  new_buffer ← lift (vector_new new_capacity);
  new_buffer ← (λ s, lift (copy_elements (Z.to_nat (count s)) 0 s new_buffer) s);
  modify (set_buffer new_buffer) ;;
  modify (set_capacity new_capacity) ;;
  modify (set_front 0) ;;
  r ← (λ s, lift (defined (size_rem (count s) (capacity s))) s);
  modify (set_rear r) ;;
  c ← gets capacity;
  write_log (String.append "La cola cambió de tamaño a "
               (String.append (decimal c) endl)).

(** [CircularQueueMonitor(init_capacity, log_file_ref)]. *)
Definition construct (init_capacity : Z) (log : string) : outcome monitor :=
  outcome_bind (vector_new init_capacity) (λ v,
  Ret (Monitor v init_capacity 0 0 0 false log [])).

Definition enqueue (item : Z) : M unit :=
  wait not_full (λ s, count s <? capacity s) ;;
  v ← (λ s, lift (defined (vector_set (buffer s) (rear s) item)) s);
  modify (set_buffer v) ;;
  r ← (λ s, lift (defined (size_rem (size_add (rear s) 1) (capacity s))) s);
  modify (set_rear r) ;;
  modify (λ s, set_count (size_add (count s) 1) s) ;;
  full ← gets (λ s, count s =? capacity s);
  (if full : bool
   then c ← gets capacity; resize (size_mul c 2)
   else mret tt) ;;
  notify (notify_one not_empty).

(** [bool dequeue(int& item)]: [Some item] stands for [true] with the
    item stored through the reference, [None] for [false]. *)
Definition dequeue : M (option Z) :=
  wait not_empty (λ s, negb ((count s =? 0) && negb (producers_done s))) ;;
  stop ← gets (λ s, (count s =? 0) && producers_done s);
  if stop : bool then mret None else
  item ← (λ s, lift (defined (vector_get (buffer s) (front s))) s);
  f ← (λ s, lift (defined (size_rem (size_add (front s) 1) (capacity s))) s);
  modify (set_front f) ;;
  modify (λ s, set_count (size_sub (count s) 1) s) ;;
  shrink ← gets (λ s, (1 <? capacity s) && (count s <=? capacity s / 4));
  (if shrink : bool
   then c ← gets capacity; resize (c / 2)
   else mret tt) ;;
  notify (notify_one not_full) ;;
  mret (Some item).

Definition set_producers_done : M unit :=
  modify (set_done true) ;;
  notify (notify_all not_empty).

End WithAllocator.

End CircularQueueMonitor.

(** ** The consumer thread *)

(** The states of a consumer, as the specification names them. *)
Inductive consumer_phase : Type := Draining | IdleWaiting | Exited.

(** One turn of the [while (true)] loop of [consumer_function].  The
    readings of [steady_clock::now()] are inputs, in nanoseconds:
    [now_item] is the reading taken after an item was processed,
    [now_empty] the one taken after an empty result.  The result is the
    state the consumer is in after the turn and its [start_time].
    [duration_cast<seconds>] truncates toward zero.  The pauses
    ([sleep_for]) only let time pass; they show in the clock readings. *)
Definition consumer_iteration (max_size : Z) (max_wait_time : Z)
    (start_time now_item now_empty : Z)
  : CircularQueueMonitor.M (consumer_phase * Z) :=
  got ← CircularQueueMonitor.dequeue max_size;
  match got with
  | Some _ => mret (Draining, now_item)
  | None =>
      done ← CircularQueueMonitor.gets CircularQueueMonitor.producers_done;
      if done : bool then mret (Exited, start_time) else
      let elapsed_time := (now_empty - start_time) ÷ 10 ^ 9 in
      if elapsed_time >=? max_wait_time
      then mret (Exited, start_time)
      else mret (IdleWaiting, start_time)
  end.

(** ** Sequential executions *)

Inductive call : Type :=
  | Enqueue (item : Z)
  | Dequeue
  | SetProducersDone.

(** What a completed call hands back to its caller: nothing, or the
    result of [dequeue]. *)
Definition perform (max_size : Z) (c : call)
  : CircularQueueMonitor.M (list (option Z)) :=
  match c with
  | Enqueue item => CircularQueueMonitor.enqueue max_size item ;; mret []
  | Dequeue => r ← CircularQueueMonitor.dequeue max_size; mret [r]
  | SetProducersDone => CircularQueueMonitor.set_producers_done ;; mret []
  end.

(** The calls of [cs] one after the other; the results of the dequeues in
    the order they were returned. *)
Fixpoint run (max_size : Z) (cs : list call)
  : CircularQueueMonitor.M (list (option Z)) :=
  match cs with
  | [] => mret []
  | c :: cs' =>
      r ← perform max_size c;
      rs ← run max_size cs';
      mret (r ++ rs)
  end.

(** The items passed to [enqueue] in [cs], in order. *)
Fixpoint enqueued (cs : list call) : list Z :=
  match cs with
  | [] => []
  | Enqueue item :: cs' => item :: enqueued cs'
  | _ :: cs' => enqueued cs'
  end.

(** The items handed out by the dequeues that returned [true]. *)
Definition delivered (rs : list (option Z)) : list Z := omap id rs.

(** ** The reference queue

    Following the specification's words: a plain unbounded FIFO list with
    the producers-finished flag.  [enqueue] appends and never waits;
    [dequeue] hands out the head, reports the end of the stream on an
    empty closed queue and waits on an empty open one. *)
Module Fifo.

Record fifo : Type := Queue { items : list Z; closed : bool }.

Definition empty : fifo := Queue [] false.

Definition perform (c : call) (q : fifo) : outcome (list (option Z) * fifo) :=
  match c with
  | Enqueue item => Ret ([], Queue (items q ++ [item]) (closed q))
  | Dequeue =>
      match items q with
      | x :: rest => Ret ([Some x], Queue rest (closed q))
      | [] => if closed q then Ret ([None], q) else Block
      end
  | SetProducersDone => Ret ([], Queue (items q) true)
  end.

Fixpoint run (cs : list call) (q : fifo) : outcome (list (option Z) * fifo) :=
  match cs with
  | [] => Ret ([], q)
  | c :: cs' =>
      outcome_bind (perform c q) (λ '(r, q'),
      outcome_bind (run cs' q') (λ '(rs, q''),
      Ret (r ++ rs, q'')))
  end.

End Fifo.

(** ** Representation invariant and abstraction *)

Import CircularQueueMonitor.

(** The [k]-th element of the queue, counted from the front. *)
Definition slot (s : monitor) (k : Z) : Z :=
  default 0 (buffer s !! Z.to_nat ((front s + k) mod capacity s)).

(** The logical content: [count] elements read from [front], wrapping at
    [capacity]. *)
Definition contents (s : monitor) : list Z :=
  slot s <$> seqZ 0 (count s).

(** The invariant of section 3 of the specification, with the facts that
    [buffer] is a vector of [capacity] elements and that a vector never
    holds more than [max_size] elements. *)
Record rep_inv (max_size : Z) (s : monitor) : Prop := RepInv {
  inv_slots : Z.of_nat (length (buffer s)) = capacity s;
  inv_alloc : capacity s ≤ max_size;
  inv_capacity : 1 ≤ capacity s;
  inv_count : 0 ≤ count s ≤ capacity s;
  inv_front : 0 ≤ front s < capacity s;
  inv_rear : 0 ≤ rear s < capacity s;
  inv_wrap : rear s = (front s + count s) mod capacity s
}.

(** The states a monitor goes through: the state left by the constructor,
    and the states left by completed calls of the public member
    functions. *)
Inductive observable (max_size : Z) : monitor → Prop :=
  | obs_construct init_capacity log s :
      0 < init_capacity →
      construct max_size init_capacity log = Ret s →
      observable max_size s
  | obs_enqueue item s s' :
      observable max_size s →
      enqueue max_size item s = Ret (tt, s') →
      observable max_size s'
  | obs_dequeue s r s' :
      observable max_size s →
      dequeue max_size s = Ret (r, s') →
      observable max_size s'
  | obs_set_producers_done s s' :
      observable max_size s →
      set_producers_done s = Ret (tt, s') →
      observable max_size s'.

(** The reference queue a monitor state stands for. *)
Definition abstraction (s : monitor) : Fifo.fifo :=
  Fifo.Queue (contents s) (producers_done s).

(** The monitor's outcome [o] is the reference queue's outcome [o']: the
    same results for the caller, and a state that stands for the reference
    queue's state. *)
Definition agrees (o : outcome (list (option Z) * monitor))
    (o' : outcome (list (option Z) * Fifo.fifo)) : Prop :=
  match o, o' with
  | Ret (rs, s), Ret (rs', q) => rs = rs' ∧ abstraction s = q
  | Block, Block => True
  | _, _ => False
  end.

(** ** The line a resize writes *)

Definition resize_line (n : Z) : string :=
  String.append "La cola cambió de tamaño a " (String.append (decimal n) endl).

(** No line feed among the characters of [t]. *)
Fixpoint single_line (t : string) : bool :=
  match t with
  | EmptyString => true
  | String a t' => negb (Ascii.eqb a (ascii_of_nat 10)) && single_line t'
  end.

(** ** The effect of the steps of a call

    The states that the statements of [enqueue], [dequeue] and [resize]
    leave when nothing goes wrong, written as plain functions; the lemmas
    below show that the member functions compute them. *)

(** Lines 61 to 63: the item stored at [rear], [rear] advanced, [count]
    incremented. *)
Definition inserted (item : Z) (s : monitor) : monitor :=
  Monitor (<[Z.to_nat (rear s) := item]> (buffer s)) (capacity s) (front s)
          ((rear s + 1) mod capacity s) (count s + 1) (producers_done s)
          (log_file s) (notified s).

(** Lines 89 and 90: [front] advanced, [count] decremented. *)
Definition removed (s : monitor) : monitor :=
  Monitor (buffer s) (capacity s) ((front s + 1) mod capacity s) (rear s)
          (count s - 1) (producers_done s) (log_file s) (notified s).

(** Lines 30 to 43: the content moved to the start of a fresh vector of
    [n] elements, and the line written to the log. *)
Definition resized (n : Z) (s : monitor) : monitor :=
  Monitor (contents s ++ replicate (Z.to_nat (n - count s)) 0) n 0
          (count s mod n) (count s) (producers_done s)
          (String.append (log_file s) (resize_line n)) (notified s).

Definition signalled (sg : signal) (s : monitor) : monitor :=
  set_notified (notified s ++ [sg]) s.

(** The capacities set by the resizes that happen while the calls of [cs]
    run from [s], oldest first.  In a state that satisfies the invariant
    the two calls of [resize] ask for [2 * capacity] and, above capacity 1,
    for [capacity / 2]; a call has resized exactly when it has changed the
    capacity. *)
Fixpoint resizes (max_size : Z) (cs : list call) (s : monitor) : list Z :=
  match cs with
  | [] => []
  | c :: cs' =>
      match perform max_size c s with
      | Ret (_, s') =>
          (if decide (capacity s' = capacity s) then [] else [capacity s'])
          ++ resizes max_size cs' s'
      | _ => []
      end
  end.

(** The lines of [ls] one after the other. *)
Definition log_text (ls : list string) : string :=
  foldr String.append EmptyString ls.

(** [vector<int>::max_size()] of libstdc++ on an LP64 platform,
    [PTRDIFF_MAX / sizeof(int)]; the allocator of the examples. *)
Definition libstdcxx_max_size : Z := (2 ^ 63 - 1) / 4.

(** ** Example monitors *)

(** A monitor of capacity 8 that holds 11, 12, 13 across the wrap. *)
Definition wrapped_monitor : monitor :=
  Monitor [12; 13; 0; 0; 0; 0; 0; 11] 8 7 2 3 false "" [].

(** An empty monitor whose producers have finished. *)
Definition finished_monitor : monitor :=
  Monitor [5; 6] 2 1 1 0 true "" [notify_all not_empty].

(** ** The producer thread *)

(** The loop of [producer_function],
    [for (i = 0; i < items_to_produce; ++i) queue_monitor.enqueue(i)],
    by recursion on the number [n] of iterations left; [i] stays below
    [items_to_produce], an [int], so [++i] does not overflow.  The pause
    after each call only lets time pass. *)
Fixpoint produce (max_size : Z) (n : nat) (i : Z) : M unit :=
  match n with
  | O => mret tt
  | S n' => enqueue max_size i ;; produce max_size n' (i + 1)
  end.

Definition producer_function (max_size : Z) (producer_id items_to_produce : Z)
  : M unit :=
  produce max_size (Z.to_nat items_to_produce) 0.

(** ** The consumer's loop *)



(** ** The command line of [main] *)

Module CommandLine.

Record options : Type := Options {
  num_producers : Z;
  num_consumers : Z;
  initial_queue_size : Z;          (* a size_t *)
  max_consumer_wait_time : Z
}.

(** The defaults of lines 153 to 156. *)
Definition defaults : options := Options 10 5 50 1.

(** The four options of the program. *)
Inductive flag : Type := flag_p | flag_c | flag_s | flag_t.

Definition flag_text (f : flag) : string :=
  match f with
  | flag_p => "-p"
  | flag_c => "-c"
  | flag_s => "-s"
  | flag_t => "-t"
  end.

Section WithAtoi.

(** [atoi] of the C library: the [int] a string of the command line
    stands for. *)
Variable atoi : string → Z.

(** The assignment an option makes; the [int] given for [-s] is converted
    to [size_t]. *)
Definition assign (f : flag) (v : string) (o : options) : options :=
  match f with
  | flag_p =>
      Options (atoi v) (num_consumers o) (initial_queue_size o)
              (max_consumer_wait_time o)
  | flag_c =>
      Options (num_producers o) (atoi v) (initial_queue_size o)
              (max_consumer_wait_time o)
  | flag_s =>
      Options (num_producers o) (num_consumers o) (size_wrap (atoi v))
              (max_consumer_wait_time o)
  | flag_t =>
      Options (num_producers o) (num_consumers o) (initial_queue_size o)
              (atoi v)
  end.

(** What [main] writes to [cerr] before it returns 1. *)
Definition unknown_parameter (a : string) : string :=
  String.append "Parámetro desconocido: " (String.append a endl).

(** The loop of lines 159 to 172 over [argv[1 ..]].  [inl o] is the
    options when the loop ends; [inr text] is [return 1] with [text] on
    [cerr].  An option is taken only when an argument follows it
    ([i + 1 < argc]); that argument is consumed with it ([++i]). *)
Fixpoint parse (args : list string) (o : options) : options + string :=
  match args with
  | [] => inl o
  | a :: rest =>
      match rest with
      | v :: rest' =>
          if String.eqb a "-p" then parse rest' (assign flag_p v o)
          else if String.eqb a "-c" then parse rest' (assign flag_c v o)
          else if String.eqb a "-s" then parse rest' (assign flag_s v o)
          else if String.eqb a "-t" then parse rest' (assign flag_t v o)
          else inr (unknown_parameter a)
      | [] => inr (unknown_parameter a)
      end
  end.

(** An option and its value, as they stand on the command line. *)
Definition render (fv : flag * string) : list string := [flag_text fv.1; fv.2].

End WithAtoi.

End CommandLine.

(** [main] up to the construction of the monitor: the command line is
    read, the log is opened ([log_opens] tells whether [is_open()] holds)
    and the monitor is built on the empty log.  [inr (text, 1)] is
    [return 1] with [text] on [cerr]. *)
Definition main_setup (max_size : Z) (atoi : string → Z) (log_opens : bool)
    (args : list string) : outcome (CommandLine.options * monitor) + string * Z :=
  match CommandLine.parse atoi args CommandLine.defaults with
  | inr text => inr (text, 1)
  | inl o =>
      if log_opens
      then inl (outcome_bind
                  (construct max_size (CommandLine.initial_queue_size o) "")
                  (λ s, Ret (o, s)))
      else inr (String.append
                  "No se pudo abrir el archivo log.txt para escribir." endl, 1)
  end.

(** ** Reading a sequence of calls *)

Definition is_set_producers_done (c : call) : bool :=
  match c with
  | SetProducersDone => true
  | _ => false
  end.

(** The notification a completed call issues, given what it handed back:
    one for an [enqueue], one for a [dequeue] that returned an item, none
    for a [dequeue] that reported the end of the stream, one broadcast for
    [set_producers_done]. *)
Definition signals_of (c : call) (r : list (option Z)) : list signal :=
  match c with
  | Enqueue _ => [notify_one not_empty]
  | Dequeue =>
      match r with
      | [Some _] => [notify_one not_full]
      | _ => []
      end
  | SetProducersDone => [notify_all not_empty]
  end.

(** A computation that leaves [producers_done] as it found it. *)
Definition keeps_flag {A : Type} (m : M A) : Prop :=
  ∀ s a s', m s = Ret (a, s') → producers_done s' = producers_done s.

(** An [atoi] for the examples: the value of a plain decimal numeral with
    an optional sign, 0 for any other string. *)
Definition atoi_numeral (v : string) : Z :=
  match NilZero.int_of_string v with
  | Some d => Z.of_int d
  | None => 0
  end.

(** The monitor of capacity 8 above, after the producers have finished. *)
Definition closing_monitor : monitor :=
  Monitor [12; 13; 0; 0; 0; 0; 0; 11] 8 7 2 3 true "" [notify_all not_empty].

(** * The page replacement simulator

    The second program of the repository: a page table kept as a hash
    table with chaining, and four functions that count the page faults of
    a reference string under a replacement policy.  [int] values are [Z];
    an [int] compared with a [size_t] is first converted to [size_t]
    ([size_wrap]); signed overflow and an access outside a container have
    no defined behaviour.  The [unordered_set<int>] of the simulators is a
    list without repetitions, in no particular order. *)

Module Paging.

Definition INT_MAX : Z := 2 ^ 31 - 1.
Definition INT_MIN : Z := - 2 ^ 31.

(** [n++] on an [int]. *)
Definition int_incr (n : Z) : outcome Z :=
  if decide (n < INT_MAX) then Ret (n + 1) else Abort undefined_behavior.

(** [a % b] on [int]s: the remainder has the sign of [a]. *)
Definition int_rem (a b : Z) : outcome Z :=
  if decide (b = 0 ∨ (a = INT_MIN ∧ b = -1)) then Abort undefined_behavior
  else Ret (Z.rem a b).

(** [v[i]] with an [int] index, converted to [size_t]. *)
Definition at_index {A : Type} (v : list A) (i : Z) : outcome A :=
  if decide (size_wrap i < Z.of_nat (length v))
  then defined (v !! Z.to_nat (size_wrap i))
  else Abort undefined_behavior.

(** [for (int page : references)] with the loop body [step]. *)
Fixpoint for_each {S : Type} (step : S → Z → outcome S) (references : list Z)
    (st : S) : outcome S :=
  match references with
  | [] => Ret st
  | page :: rest => outcome_bind (step st page) (for_each step rest)
  end.

(** [std::unordered_set<int>]: [insert] and [erase]; [find] is [∈]. *)
Definition set_insert (x : Z) (l : list Z) : list Z :=
  if decide (x ∈ l) then l else x :: l.
Definition set_erase (x : Z) (l : list Z) : list Z :=
  filter (λ y, y ≠ x) l.

(** ** PageTable *)

Record PageTableEntry : Type := Entry { page_number : Z; valid : bool }.

Record PageTable : Type := Table {
  table_size : Z;
  table : list (list PageTableEntry)
}.

(** [PageTable(size)]: [size] empty chains.  [max_size] is
    [vector<list<PageTableEntry>>::max_size()]; the [int] is converted to
    [size_t] for the vector. *)
Definition construct (max_size : Z) (size : Z) : outcome PageTable :=
  if decide (size_wrap size ≤ max_size)
  then Ret (Table size (replicate (Z.to_nat (size_wrap size)) []))
  else Abort length_error.

Definition hashFunction (t : PageTable) (page_number : Z) : outcome Z :=
  int_rem page_number (table_size t).

(** The loop of [insert] over a chain: the chain with the entry of
    [page] marked valid, or [None] when the chain has no such entry. *)
Fixpoint revalidate (page : Z) (chain : list PageTableEntry)
  : option (list PageTableEntry) :=
  match chain with
  | [] => None
  | entry :: rest =>
      if decide (page_number entry = page)
      then Some (Entry (page_number entry) true :: rest)
      else cons entry <$> revalidate page rest
  end.

Definition insert (page : Z) (t : PageTable) : outcome PageTable :=
  outcome_bind (hashFunction t page) (λ index,
  outcome_bind (at_index (table t) index) (λ chain,
  let chain' :=
    match revalidate page chain with
    | Some marked => marked
    | None => chain ++ [Entry page true]
    end in
  Ret (Table (table_size t) (<[Z.to_nat (size_wrap index) := chain']> (table t))))).

Definition remove (page : Z) (t : PageTable) : outcome PageTable :=
  outcome_bind (hashFunction t page) (λ index,
  outcome_bind (at_index (table t) index) (λ chain,
  let chain' := filter (λ entry, page_number entry ≠ page) chain in
  Ret (Table (table_size t) (<[Z.to_nat (size_wrap index) := chain']> (table t))))).

Definition isValid (page : Z) (t : PageTable) : outcome bool :=
  outcome_bind (hashFunction t page) (λ index,
  outcome_bind (at_index (table t) index) (λ chain,
  Ret (existsb (λ entry, bool_decide (page_number entry = page) && valid entry)
               chain))).

(** A table as the constructor leaves it and the member functions keep
    it: [table_size] chains, with a positive [int] for [table_size]. *)
Definition table_wf (t : PageTable) : Prop :=
  0 < table_size t ≤ INT_MAX ∧ Z.of_nat (length (table t)) = table_size t.

(** What [isValid] looks for in a chain. *)
Definition holds (page : Z) (chain : list PageTableEntry) : bool :=
  existsb (λ entry, bool_decide (page_number entry = page) && valid entry) chain.

(** ** simulateFIFO *)

Record fifo_state : Type := FifoState {
  fifo_frames : list Z;          (* queue<int>, the front first *)
  fifo_pages : list Z;           (* pages_in_memory *)
  fifo_faults : Z
}.

Definition fifo_step (num_frames : Z) (st : fifo_state) (page : Z)
  : outcome fifo_state :=
  if decide (page ∈ fifo_pages st) then Ret st else
  outcome_bind
    (if decide (Z.of_nat (length (fifo_frames st)) < size_wrap num_frames)
     then Ret (fifo_frames st ++ [page], set_insert page (fifo_pages st))
     else match fifo_frames st with
          | [] => Abort undefined_behavior       (* front() of an empty queue *)
          | page_to_remove :: rest =>
              Ret (rest ++ [page],
                   set_insert page (set_erase page_to_remove (fifo_pages st)))
          end)
    (λ fp,
  outcome_bind (int_incr (fifo_faults st)) (λ faults,
  Ret (FifoState fp.1 fp.2 faults))).

Definition simulateFIFO (references : list Z) (num_frames : Z) : outcome Z :=
  outcome_bind (for_each (fifo_step num_frames) references (FifoState [] [] 0))
    (λ st, Ret (fifo_faults st)).

(** ** simulateLRU *)

Record lru_state : Type := LruState {
  lru_frames : list Z;           (* list<int>, the most recently used first *)
  lru_pages : list Z;            (* pages_in_memory *)
  lru_faults : Z
}.

Definition lru_step (num_frames : Z) (st : lru_state) (page : Z)
  : outcome lru_state :=
  if decide (page ∈ lru_pages st)
  then Ret (LruState (page :: filter (λ y, y ≠ page) (lru_frames st))
                     (lru_pages st) (lru_faults st))
  else
  outcome_bind
    (if decide (Z.of_nat (length (lru_frames st)) < size_wrap num_frames)
     then Ret (page :: lru_frames st, set_insert page (lru_pages st))
     else match last (lru_frames st) with
          | None => Abort undefined_behavior     (* back() of an empty list *)
          | Some lru_page =>
              Ret (page :: removelast (lru_frames st),
                   set_insert page (set_erase lru_page (lru_pages st)))
          end)
    (λ fp,
  outcome_bind (int_incr (lru_faults st)) (λ faults,
  Ret (LruState fp.1 fp.2 faults))).

Definition simulateLRU (references : list Z) (num_frames : Z) : outcome Z :=
  outcome_bind (for_each (lru_step num_frames) references (LruState [] [] 0))
    (λ st, Ret (lru_faults st)).

(** ** simulateClock *)

Record ClockEntry : Type := Clock { clock_page : Z; use_bit : bool }.

Record clock_state : Type := ClockState {
  clock_frames : list ClockEntry;
  hand : Z;
  clock_faults : Z
}.

(** The search for [page] among the frames: the frames with the use bit
    of the first entry that holds [page] set, or [None] when no entry
    holds it. *)
Fixpoint touch (page : Z) (frames : list ClockEntry) : option (list ClockEntry) :=
  match frames with
  | [] => None
  | entry :: rest =>
      if decide (clock_page entry = page)
      then Some (Clock (clock_page entry) true :: rest)
      else cons entry <$> touch page rest
  end.

(** The [while (true)] loop that looks for a victim.  The loop has no
    bound of its own: [fuel] bounds its turns and [Ret None] is the
    answer of a loop that is still running when the fuel is spent. *)
Fixpoint sweep (fuel : nat) (num_frames page : Z) (frames : list ClockEntry)
    (hand : Z) : outcome (option (list ClockEntry * Z)) :=
  match fuel with
  | O => Ret None
  | S fuel' =>
      outcome_bind (at_index frames hand) (λ entry,
      outcome_bind (int_incr hand) (λ next,
      outcome_bind (int_rem next num_frames) (λ hand',
      if use_bit entry
      then sweep fuel' num_frames page
             (<[Z.to_nat (size_wrap hand) := Clock (clock_page entry) false]> frames)
             hand'
      else Ret (Some (<[Z.to_nat (size_wrap hand) := Clock page true]> frames,
                      hand')))))
  end.

(** One reference; [None] when the victim loop ran out of fuel. *)
Definition clock_step (fuel : nat) (num_frames : Z) (st : clock_state) (page : Z)
  : outcome (option clock_state) :=
  match touch page (clock_frames st) with
  | Some frames => Ret (Some (ClockState frames (hand st) (clock_faults st)))
  | None =>
      outcome_bind (sweep fuel num_frames page (clock_frames st) (hand st))
        (λ found,
      match found with
      | None => Ret None
      | Some fh =>
          outcome_bind (int_incr (clock_faults st)) (λ faults,
          Ret (Some (ClockState fh.1 fh.2 faults)))
      end)
  end.

Fixpoint clock_run (fuel : nat) (num_frames : Z) (references : list Z)
    (st : clock_state) : outcome (option clock_state) :=
  match references with
  | [] => Ret (Some st)
  | page :: rest =>
      outcome_bind (clock_step fuel num_frames st page) (λ o,
      match o with
      | None => Ret None
      | Some st' => clock_run fuel num_frames rest st'
      end)
  end.

(** [fuel] is the bound on the turns of each victim search. *)
Definition simulateClock (fuel : nat) (references : list Z) (num_frames : Z)
  : outcome (option Z) :=
  outcome_bind
    (clock_run fuel num_frames references
       (ClockState (replicate (Z.to_nat num_frames) (Clock (-1) false)) 0 0))
    (λ o, Ret (clock_faults <$> o)).

(** ** simulateOptimal *)

(** The conversion of a [size_t] to [int]: the value modulo [2^32], as a
    signed number. *)
Definition to_int (z : Z) : Z := (z + 2 ^ 31) mod 2 ^ 32 - 2 ^ 31.

(** [v[i] = x] with an [int] index, converted to [size_t]. *)
Definition store_at {A : Type} (v : list A) (i : Z) (x : A) : outcome (list A) :=
  if decide (size_wrap i < Z.of_nat (length v))
  then Ret (<[Z.to_nat (size_wrap i) := x]> v)
  else Abort undefined_behavior.

(** The inner loop,
    [for (k = ...; k < references.size(); ++k) if (frame == references[k]) break;],
    by recursion on the number [n] of entries from [k] to the end; the
    result is [k] when the loop is left. *)
Fixpoint next_use (n : nat) (k : Z) (frame : Z) (references : list Z) : outcome Z :=
  match n with
  | O => Ret k
  | S n' =>
      outcome_bind (at_index references k) (λ r,
      if decide (frame = r) then Ret k
      else outcome_bind (int_incr k) (λ k', next_use n' k' frame references))
  end.

(** The loop over the frames, [for (int j = ...; j < frames.size(); ++j)],
    by recursion on the number [n] of frames from [j] on; the result is
    [index_to_replace] when the loop is left.  The inner loop was left by
    [break] exactly when its [k] is below [references.size()]. *)
Fixpoint choose (n : nat) (j i : Z) (references frames : list Z)
    (farthest index_to_replace : Z) : outcome Z :=
  match n with
  | O => Ret index_to_replace
  | S n' =>
      outcome_bind (at_index frames j) (λ frame,
      let k0 := to_int (size_add i 1) in
      outcome_bind
        (next_use (Z.to_nat (Z.of_nat (length references) - size_wrap k0))
                  k0 frame references) (λ k,
      if decide (size_wrap k = Z.of_nat (length references)) then Ret j
      else
        let later :=
          bool_decide (size_wrap k < Z.of_nat (length references) ∧ farthest < k) in
        outcome_bind (int_incr j) (λ j',
        choose n' j' i references frames
          (if later then k else farthest)
          (if later then j else index_to_replace))))
  end.

Record optimal_state : Type := OptimalState {
  optimal_frames : list Z;
  optimal_faults : Z
}.

(** The body of the loop over the references, at index [i]. *)
Definition optimal_step (num_frames : Z) (references : list Z) (i : Z)
    (st : optimal_state) : outcome optimal_state :=
  outcome_bind (at_index references i) (λ page,
  if decide (page ∈ optimal_frames st) then Ret st else
  outcome_bind
    (if decide (Z.of_nat (length (optimal_frames st)) < size_wrap num_frames)
     then Ret (optimal_frames st ++ [page])
     else
       outcome_bind
         (choose (length (optimal_frames st)) 0 i references (optimal_frames st)
                 (to_int i) (-1)) (λ index_to_replace,
       store_at (optimal_frames st)
         (if decide (index_to_replace = -1) then 0 else index_to_replace) page))
    (λ frames,
  outcome_bind (int_incr (optimal_faults st)) (λ faults,
  Ret (OptimalState frames faults)))).

(** [for (size_t i = ...; i < references.size(); ++i)], by recursion on
    the number [n] of references from [i] on. *)
Fixpoint optimal_loop (n : nat) (num_frames : Z) (references : list Z) (i : Z)
    (st : optimal_state) : outcome optimal_state :=
  match n with
  | O => Ret st
  | S n' =>
      outcome_bind (optimal_step num_frames references i st)
        (optimal_loop n' num_frames references (size_add i 1))
  end.

Definition simulateOptimal (references : list Z) (num_frames : Z) : outcome Z :=
  outcome_bind
    (optimal_loop (length references) num_frames references 0 (OptimalState [] 0))
    (λ st, Ret (optimal_faults st)).

(** ** Reading a reference string *)

(** The number of different pages in [references]. *)
Definition distinct (references : list Z) : nat :=
  length (remove_dups references).

(** What the simulators keep in memory, against the references [seen] so
    far: the set of pages and the frames hold the same pages, no frame
    twice, and only pages that were referenced. *)
Record resident (seen frames pages : list Z) : Prop := Resident {
  res_pages : ∀ x, x ∈ pages ↔ x ∈ frames;
  res_nodup : NoDup frames;
  res_seen : ∀ x, x ∈ frames → x ∈ seen
}.

(** ** What the simulators keep between two references *)

Definition fifo_bounds (seen : list Z) (st : fifo_state) : Prop :=
  resident seen (fifo_frames st) (fifo_pages st)
  ∧ Z.of_nat (distinct seen) ≤ fifo_faults st ≤ Z.of_nat (length seen).

Definition fifo_exact (seen : list Z) (st : fifo_state) : Prop :=
  resident seen (fifo_frames st) (fifo_pages st)
  ∧ (∀ x, x ∈ seen → x ∈ fifo_frames st)
  ∧ fifo_faults st = Z.of_nat (distinct seen).

Definition lru_bounds (seen : list Z) (st : lru_state) : Prop :=
  resident seen (lru_frames st) (lru_pages st)
  ∧ Z.of_nat (distinct seen) ≤ lru_faults st ≤ Z.of_nat (length seen).

Definition lru_exact (seen : list Z) (st : lru_state) : Prop :=
  resident seen (lru_frames st) (lru_pages st)
  ∧ (∀ x, x ∈ seen → x ∈ lru_frames st)
  ∧ lru_faults st = Z.of_nat (distinct seen).

(** The number of frames whose use bit is set. *)
Definition bits (frames : list ClockEntry) : nat :=
  length (filter (λ entry, use_bit entry = true) frames).

Definition clock_bounds (n : nat) (seen : list Z) (st : clock_state) : Prop :=
  length (clock_frames st) = n
  ∧ 0 ≤ hand st < Z.of_nat n
  ∧ (∀ entry, entry ∈ clock_frames st →
       clock_page entry = -1 ∨ clock_page entry ∈ seen)
  ∧ 0 ≤ clock_faults st ≤ Z.of_nat (length seen)
  ∧ (-1 ∉ seen → Z.of_nat (distinct seen) ≤ clock_faults st).

(** Frames that were filled in the order [filled], the others still
    empty. *)
Definition filled_frames (n : nat) (filled : list Z) : list ClockEntry :=
  ((λ page, Clock page true) <$> filled)
  ++ replicate (n - length filled) (Clock (-1) false).

Definition clock_exact (n : nat) (seen : list Z) (st : clock_state) : Prop :=
  ∃ filled,
    NoDup filled
    ∧ (∀ x, x ∈ filled ↔ x ∈ seen)
    ∧ (length filled ≤ n)%nat
    ∧ clock_frames st = filled_frames n filled
    ∧ hand st = Z.of_nat (length filled) mod Z.of_nat n
    ∧ clock_faults st = Z.of_nat (length filled).

(** What [simulateOptimal] has between two references: no page twice in
    the frames, only pages referenced so far, and a page-fault count
    between the number of different pages so far and the number of
    references so far. *)
Definition optimal_bounds (seen : list Z) (st : optimal_state) : Prop :=
  NoDup (optimal_frames st)
  ∧ (∀ x, x ∈ optimal_frames st → x ∈ seen)
  ∧ Z.of_nat (distinct seen) ≤ optimal_faults st ≤ Z.of_nat (length seen).

Definition optimal_exact (seen : list Z) (st : optimal_state) : Prop :=
  NoDup (optimal_frames st)
  ∧ (∀ x, x ∈ optimal_frames st ↔ x ∈ seen)
  ∧ optimal_faults st = Z.of_nat (distinct seen).

(** [page] is referenced at an index above [i] and at most [bound]. *)
Definition used_by (references : list Z) (i bound : Z) (page : Z) : Prop :=
  ∃ m : nat, i < Z.of_nat m ≤ bound ∧ references !! m = Some page.

(** [page] is not referenced at any index above [i]. *)
Definition unused_after (references : list Z) (i : Z) (page : Z) : Prop :=
  ∀ m : nat, i < Z.of_nat m → references !! m ≠ Some page.

(** The next reference to [page] above [i] is at index [next]. *)
Definition next_used_at (references : list Z) (i next : Z) (page : Z) : Prop :=
  i < next
  ∧ references !! Z.to_nat next = Some page
  ∧ ∀ m : nat, i < Z.of_nat m < next → references !! m ≠ Some page.

(** What the loop over the frames knows when it reaches frame [j]. *)
Definition choosing (references frames : list Z) (i j farthest index : Z) : Prop :=
  (index = -1 ∧ farthest = i ∧ j = 0)
  ∨ (0 ≤ index < j
     ∧ (∃ page, frames !! Z.to_nat index = Some page
                ∧ next_used_at references i farthest page)
     ∧ ∀ (j' : nat) page, Z.of_nat j' < j → frames !! j' = Some page →
         used_by references i farthest page).

(** The frame that the loop over the frames settles on. *)
Definition chosen (references frames : list Z) (i r : Z) : Prop :=
  (r = -1 ∧ frames = [])
  ∨ (0 ≤ r < Z.of_nat (length frames)
     ∧ ∃ page, frames !! Z.to_nat r = Some page
       ∧ (unused_after references i page
          ∨ ∃ next, next_used_at references i next page
                    ∧ ∀ other, other ∈ frames → used_by references i next other)).

(** ** Examples *)

(** A table of three chains that holds page 4. *)
Definition small_table : PageTable :=
  Table 3 [[]; [Entry 4 true]; []].

(** A reference string of twenty references to six pages. *)
Definition sample_references : list Z :=
  [7; 0; 1; 2; 0; 3; 0; 4; 2; 3; 0; 3; 2; 1; 2; 0; 1; 7; 0; 1].

End Paging.

(** * Properties *)

(** ** Arithmetic of indices *)

Lemma size_wrap_small z : 0 ≤ z < 2 ^ 64 → size_wrap z = z.
Proof. intros Hz. unfold size_wrap. by apply Z.mod_small. Qed.

Lemma index_wrap a k c :
  0 ≤ a < c → 0 ≤ k ≤ c →
  (a + k) mod c = if decide (a + k < c) then a + k else a + k - c.
Proof.
  intros Ha Hk. case_decide.
  - apply Z.mod_small. lia.
  - symmetry. apply (Z.mod_unique_pos _ _ 1). lia. lia.
Qed.

Lemma index_in_range a c : 0 < c → 0 ≤ a mod c < c.
Proof. intros Hc. by apply Z.mod_pos_bound. Qed.

(** ** Text of a log line *)

Lemma single_line_append t u :
  single_line (String.append t u) = single_line t && single_line u.
Proof.
  induction t as [|a t IH]; simpl; [done|].
  rewrite IH. by rewrite andb_assoc.
Qed.

Lemma single_line_digits d : single_line (NilEmpty.string_of_uint d) = true.
Proof. induction d; simpl; auto. Qed.

Lemma single_line_decimal n : single_line (decimal n) = true.
Proof. apply single_line_digits. Qed.

(** Unfolds the statements of a member function and the field updates. *)
Ltac monitor_simpl :=
  unfold mbind, monitor_bind, mret, monitor_ret, gets, modify, lift, wait,
    notify, write_log, set_buffer, set_capacity, set_front, set_rear,
    set_count, set_done, set_log, set_notified;
  cbn [outcome_bind defined buffer capacity front rear count producers_done
       log_file notified].

(** ** The steps of a call *)

Section Correctness.

Variable max_size : Z.
Hypothesis max_size_bound : max_size < 2 ^ 63.

Lemma length_contents s : length (contents s) = Z.to_nat (count s).
Proof. unfold contents. by rewrite length_fmap, length_seqZ. Qed.

Lemma lookup_contents s (k : nat) :
  Z.of_nat k < count s → contents s !! k = Some (slot s (Z.of_nat k)).
Proof.
  intros Hk. unfold contents.
  rewrite list_lookup_fmap, lookup_seqZ_lt by done. done.
Qed.

Lemma slot_lookup s k :
  rep_inv max_size s → 0 ≤ k ≤ capacity s →
  buffer s !! Z.to_nat ((front s + k) mod capacity s) = Some (slot s k).
Proof.
  intros [] Hk. unfold slot.
  destruct (lookup_lt_is_Some_2 (buffer s) (Z.to_nat ((front s + k) mod capacity s)))
    as [x Hx].
  - pose proof (index_in_range (front s + k) (capacity s)). lia.
  - by rewrite Hx.
Qed.

(** The copy loop writes the elements [i .. i+n) of the queue over the
    same positions of the new vector and leaves the rest of it alone. *)
Lemma copy_elements_eq s (n : nat) : ∀ (i : nat) (new_buffer : list Z),
  rep_inv max_size s →
  Z.of_nat (i + n) ≤ count s →
  (i + n ≤ length new_buffer)%nat →
  copy_elements n (Z.of_nat i) s new_buffer
  = Ret (take i new_buffer ++ (slot s <$> seqZ (Z.of_nat i) (Z.of_nat n))
         ++ drop (i + n) new_buffer).
Proof.
  induction n as [|n IH]; intros i nb Hinv Hcount Hlen.
  { simpl. rewrite Nat.add_0_r. by rewrite take_drop. }
  pose proof Hinv as [].
  cbn [copy_elements].
  assert (size_add (front s) (Z.of_nat i) = front s + Z.of_nat i) as ->
    by (apply size_wrap_small; lia).
  unfold size_rem. rewrite decide_False by lia. cbn [defined outcome_bind].
  unfold vector_get. rewrite slot_lookup by (done || lia). cbn [defined outcome_bind].
  unfold vector_set. rewrite decide_True by lia. cbn [defined outcome_bind].
  assert (size_add (Z.of_nat i) 1 = Z.of_nat (S i)) as ->
    by (rewrite Nat2Z.inj_succ; apply size_wrap_small; lia).
  rewrite Nat2Z.id.
  rewrite IH by (done || rewrite ?length_insert; lia).
  f_equal.
  rewrite (take_S_r _ _ (slot s (Z.of_nat i)))
    by (apply list_lookup_insert_eq; lia).
  rewrite take_insert_ge by lia.
  rewrite drop_insert_lt by lia.
  rewrite (seqZ_cons (Z.of_nat i)) by lia.
  rewrite <- app_assoc. cbn [fmap list_fmap app].
  replace (Z.succ (Z.of_nat i)) with (Z.of_nat (S i)) by lia.
  replace (Z.pred (Z.of_nat (S n))) with (Z.of_nat n) by lia.
  by replace (i + S n)%nat with (S i + n)%nat by lia.
Qed.

(** *** resize *)

Lemma resize_eq n s :
  rep_inv max_size s → 1 ≤ n → count s ≤ n → n ≤ max_size →
  resize max_size n s = Ret (tt, resized n s).
Proof.
  intros Hinv Hn Hc Hmax. pose proof Hinv as [].
  unfold resize, vector_new. rewrite decide_True by done. monitor_simpl.
  pose proof (copy_elements_eq s (Z.to_nat (count s)) 0
                (replicate (Z.to_nat n) 0) Hinv) as Hcopy.
  change (Z.of_nat 0) with 0 in Hcopy.
  rewrite Hcopy by (rewrite ?length_replicate; lia).
  monitor_simpl. unfold size_rem. rewrite decide_False by lia. monitor_simpl.
  unfold resized, resize_line. do 2 f_equal.
  rewrite drop_replicate, Z2Nat.id by lia.
  unfold contents. rewrite take_0. cbn [app].
  by replace (Z.to_nat n - (0 + Z.to_nat (count s)))%nat
    with (Z.to_nat (n - count s)) by lia.
Qed.

Lemma resize_length_error n s :
  max_size < n → resize max_size n s = Abort length_error.
Proof.
  intros Hn. unfold resize, mbind, monitor_bind, lift, vector_new.
  by rewrite decide_False by lia.
Qed.

(** Whatever the state, a completed [resize] has set the capacity and
    written its line, and nothing else, to the log. *)
Lemma resize_log n s s' :
  resize max_size n s = Ret (tt, s') →
  capacity s' = n ∧ log_file s' = String.append (log_file s) (resize_line n)
  ∧ notified s' = notified s ∧ producers_done s' = producers_done s
  ∧ count s' = count s.
Proof.
  unfold resize. monitor_simpl.
  destruct (vector_new max_size n) as [v| |e]; monitor_simpl; [|done..].
  destruct (copy_elements _ _ _ _) as [v'| |e]; monitor_simpl; [|done..].
  destruct (size_rem _ _) as [r|]; monitor_simpl; [|done].
  intros [= <-]. by cbn.
Qed.

(** *** The states the steps leave *)

Lemma rep_inv_inserted item s :
  rep_inv max_size s → count s < capacity s → rep_inv max_size (inserted item s).
Proof.
  intros [] Hlt. split; cbn [inserted buffer capacity front rear count].
  - by rewrite length_insert.
  - done.
  - done.
  - lia.
  - done.
  - apply index_in_range. lia.
  - rewrite inv_wrap0, Z.add_assoc. by rewrite Zplus_mod_idemp_l.
Qed.

Lemma contents_inserted item s :
  rep_inv max_size s → count s < capacity s →
  contents (inserted item s) = contents s ++ [item].
Proof.
  intros [] Hlt. unfold contents. cbn [inserted count].
  rewrite seqZ_app, fmap_app by lia. f_equal.
  - apply list_fmap_ext. intros i k [-> Hk]%lookup_seqZ.
    unfold slot. cbn [inserted buffer capacity front].
    rewrite list_lookup_insert_ne; [done|].
    rewrite inv_wrap0, !index_wrap by lia.
    repeat case_decide; lia.
  - rewrite Z.add_0_l, (seqZ_cons _ 1), seqZ_nil by done.
    cbn [fmap list_fmap]. unfold slot. cbn [inserted buffer capacity front].
    rewrite <- inv_wrap0.
    by rewrite list_lookup_insert_eq by lia.
Qed.

Lemma rep_inv_removed s :
  rep_inv max_size s → 0 < count s → rep_inv max_size (removed s).
Proof.
  intros [] Hpos. split; cbn [removed buffer capacity front rear count]; try done.
  - lia.
  - apply index_in_range. lia.
  - rewrite Zplus_mod_idemp_l, inv_wrap0. f_equal. lia.
Qed.

Lemma slot_removed s k : slot (removed s) k = slot s (1 + k).
Proof.
  unfold slot. cbn [removed buffer capacity front].
  by rewrite Zplus_mod_idemp_l, Z.add_assoc.
Qed.

Lemma contents_removed s :
  0 < count s → contents s = slot s 0 :: contents (removed s).
Proof.
  intros Hpos. unfold contents. cbn [removed count].
  rewrite (seqZ_cons 0) by done. cbn [fmap list_fmap]. f_equal.
  replace (Z.succ 0) with (1 + 0) by done.
  rewrite <- fmap_add_seqZ, <- list_fmap_compose.
  replace (Z.pred (count s)) with (count s - 1) by lia.
  apply list_fmap_ext. intros i k _. cbn. by rewrite slot_removed.
Qed.

Lemma rep_inv_resized n s :
  rep_inv max_size s → 1 ≤ n → count s ≤ n → n ≤ max_size →
  rep_inv max_size (resized n s).
Proof.
  intros [] Hn Hc Hmax.
  split; cbn [resized buffer capacity front rear count]; try done || lia.
  - rewrite length_app, length_contents, length_replicate. lia.
  - apply index_in_range. lia.
Qed.

Lemma contents_resized n s :
  rep_inv max_size s → count s ≤ n → contents (resized n s) = contents s.
Proof.
  intros [] Hc. unfold contents at 1. cbn [resized count].
  unfold contents. apply list_fmap_ext. intros i k [-> Hk]%lookup_seqZ.
  unfold slot at 1. cbn [resized buffer capacity front].
  rewrite Z.add_0_l, Z.add_0_l, Z.mod_small, Nat2Z.id by lia.
  rewrite lookup_app_l by (rewrite length_contents; lia).
  by rewrite lookup_contents.
Qed.

(** *** The member functions, case by case *)

Lemma construct_eq init_capacity log :
  construct max_size init_capacity log
  = if decide (init_capacity ≤ max_size)
    then Ret (Monitor (replicate (Z.to_nat init_capacity) 0) init_capacity
                      0 0 0 false log [])
    else Abort length_error.
Proof. unfold construct, vector_new. by case_decide. Qed.

Lemma enqueue_eq item s :
  rep_inv max_size s →
  enqueue max_size item s
  = if decide (count s < capacity s) then
      if decide (count s + 1 = capacity s) then
        if decide (2 * capacity s ≤ max_size)
        then Ret (tt, signalled (notify_one not_empty)
                        (resized (2 * capacity s) (inserted item s)))
        else Abort length_error
      else Ret (tt, signalled (notify_one not_empty) (inserted item s))
    else Block.
Proof.
  intros Hinv. pose proof Hinv as [].
  unfold enqueue. monitor_simpl.
  case_decide as Hlt.
  2: { by rewrite (proj2 (Z.ltb_ge _ _)) by lia. }
  rewrite (proj2 (Z.ltb_lt _ _)) by done.
  unfold vector_set. rewrite decide_True by lia. monitor_simpl.
  unfold size_rem. rewrite decide_False by lia. monitor_simpl.
  unfold size_add. rewrite !(size_wrap_small (_ + 1)) by lia.
  change (Monitor (<[Z.to_nat (rear s):=item]> (buffer s)) (capacity s)
            (front s) ((rear s + 1) mod capacity s) (count s + 1)
            (producers_done s) (log_file s) (notified s))
    with (inserted item s).
  case_decide as Hfull.
  - rewrite (proj2 (Z.eqb_eq _ _)) by done. cbn beta.
    replace (size_mul (capacity (inserted item s)) 2) with (capacity s * 2)
      by (symmetry; apply size_wrap_small; cbn; lia).
    rewrite (Z.mul_comm _ 2).
    case_decide as Hmax.
    + rewrite resize_eq; cbn [inserted count capacity];
        [done|by apply rep_inv_inserted|lia..].
    + by rewrite resize_length_error by lia.
  - by rewrite (proj2 (Z.eqb_neq _ _)) by done.
Qed.

(** The end-of-stream path needs no invariant. *)
Lemma dequeue_end_of_stream s :
  count s = 0 → producers_done s = true → dequeue max_size s = Ret (None, s).
Proof.
  intros Hc Hd. unfold dequeue. monitor_simpl.
  rewrite Hc, Hd. cbn. by rewrite Hc, Hd.
Qed.

Lemma dequeue_blocks s :
  count s = 0 → producers_done s = false → dequeue max_size s = Block.
Proof.
  intros Hc Hd. unfold dequeue. monitor_simpl. rewrite Hc, Hd. by cbn.
Qed.

Lemma dequeue_eq s :
  rep_inv max_size s → 0 < count s →
  dequeue max_size s
  = if decide (1 < capacity s ∧ count s - 1 ≤ capacity s / 4)
    then Ret (Some (slot s 0),
              signalled (notify_one not_full)
                (resized (capacity s / 2) (removed s)))
    else Ret (Some (slot s 0), signalled (notify_one not_full) (removed s)).
Proof.
  intros Hinv Hpos. pose proof Hinv as [].
  unfold dequeue. monitor_simpl.
  rewrite (proj2 (Z.eqb_neq (count s) 0)) by lia. cbn [andb negb].
  rewrite (proj2 (Z.eqb_neq (count s) 0)) by lia. cbn [andb negb]. cbn beta.
  unfold vector_get.
  pose proof (slot_lookup s 0 Hinv) as Hfront.
  rewrite Z.add_0_r, Z.mod_small in Hfront by lia.
  rewrite Hfront by lia. monitor_simpl.
  unfold size_rem. rewrite decide_False by lia. monitor_simpl.
  unfold size_add, size_sub. rewrite !size_wrap_small by lia.
  change (Monitor (buffer s) (capacity s) ((front s + 1) mod capacity s)
            (rear s) (count s - 1) (producers_done s) (log_file s)
            (notified s))
    with (removed s).
  case_decide as Hshrink.
  - destruct Hshrink as [Hcap Hquarter].
    rewrite (proj2 (Z.ltb_lt _ _)), (proj2 (Z.leb_le _ _)) by done.
    cbn [andb]. cbn beta.
    assert (1 ≤ capacity s / 2 ∧ capacity s / 4 ≤ capacity s / 2
            ∧ capacity s / 2 ≤ capacity s) as (? & ? & ?).
    { repeat split.
      - apply Z.div_le_lower_bound; lia.
      - apply Z.div_le_lower_bound; [lia|].
        pose proof (Z.mul_div_le (capacity s) 4). lia.
      - apply Z.div_le_upper_bound; lia. }
    rewrite resize_eq; cbn [removed count capacity];
      [done|by apply rep_inv_removed|lia..].
  - assert ((1 <? capacity s) && (count s - 1 <=? capacity s / 4) = false) as ->.
    { apply andb_false_iff. rewrite Z.ltb_ge, Z.leb_gt. lia. }
    done.
Qed.

Lemma set_producers_done_eq s :
  set_producers_done s
  = Ret (tt, signalled (notify_all not_empty) (set_done true s)).
Proof. done. Qed.

Lemma rep_inv_signalled sg s :
  rep_inv max_size s → rep_inv max_size (signalled sg s).
Proof. by intros []. Qed.

Lemma contents_signalled sg s : contents (signalled sg s) = contents s.
Proof. done. Qed.

(** What a completed [enqueue] has done. *)
Lemma enqueue_ret item s s' :
  rep_inv max_size s →
  enqueue max_size item s = Ret (tt, s') →
  count s < capacity s ∧
  (count s + 1 = capacity s ∧ 2 * capacity s ≤ max_size ∧
   s' = signalled (notify_one not_empty)
          (resized (2 * capacity s) (inserted item s))
   ∨ count s + 1 ≠ capacity s ∧
     s' = signalled (notify_one not_empty) (inserted item s)).
Proof.
  intros Hinv. rewrite enqueue_eq by done.
  repeat case_decide; intros [=]; auto.
Qed.

(** What a completed [dequeue] has done. *)
Lemma dequeue_ret s r s' :
  rep_inv max_size s →
  dequeue max_size s = Ret (r, s') →
  count s = 0 ∧ producers_done s = true ∧ r = None ∧ s' = s
  ∨ 0 < count s ∧ r = Some (slot s 0) ∧
    (1 < capacity s ∧ count s - 1 ≤ capacity s / 4 ∧
     s' = signalled (notify_one not_full)
            (resized (capacity s / 2) (removed s))
     ∨ ¬ (1 < capacity s ∧ count s - 1 ≤ capacity s / 4) ∧
       s' = signalled (notify_one not_full) (removed s)).
Proof.
  intros Hinv. pose proof Hinv as [].
  destruct (decide (count s = 0)) as [Hc|Hc].
  - destruct (producers_done s) eqn:Hd.
    + rewrite dequeue_end_of_stream by done. intros [= <- <-]. auto.
    + by rewrite dequeue_blocks.
  - rewrite dequeue_eq by (done || lia).
    case_decide; intros [= <- <-]; right; (split; [lia|]); split; auto.
    destruct H as [??]. auto.
Qed.

Lemma half_bounds c : 1 < c → 1 ≤ c / 2 ∧ c / 4 ≤ c / 2 ∧ c / 4 < c / 2 ∧ c / 2 < c.
Proof.
  intros Hc.
  pose proof (Z.div_mod c 2 ltac:(lia)). pose proof (Z.mod_pos_bound c 2 ltac:(lia)).
  pose proof (Z.div_mod c 4 ltac:(lia)). pose proof (Z.mod_pos_bound c 4 ltac:(lia)).
  lia.
Qed.

(** *** Preservation of the invariant *)

Lemma construct_rep_inv init_capacity log s :
  0 < init_capacity →
  construct max_size init_capacity log = Ret s →
  rep_inv max_size s ∧ count s = 0 ∧ capacity s = init_capacity
  ∧ producers_done s = false ∧ log_file s = log ∧ notified s = [].
Proof.
  intros Hpos. rewrite construct_eq. case_decide; [|done]. intros [= <-].
  repeat split; cbn; rewrite ?length_replicate, ?Z.mod_0_l; lia.
Qed.

Lemma enqueue_rep_inv item s s' :
  rep_inv max_size s →
  enqueue max_size item s = Ret (tt, s') →
  rep_inv max_size s' ∧ count s' < capacity s'.
Proof.
  intros Hinv Hret.
  destruct (enqueue_ret _ _ _ Hinv Hret) as [Hlt [(Hfull & Hmax & ->)|(Hfull & ->)]].
  - pose proof Hinv as []. split; [|cbn; lia].
    apply rep_inv_signalled, rep_inv_resized;
      [by apply rep_inv_inserted|cbn; lia..].
  - split; [|cbn; lia].
    by apply rep_inv_signalled, rep_inv_inserted.
Qed.

Lemma dequeue_rep_inv s r s' :
  rep_inv max_size s →
  dequeue max_size s = Ret (r, s') →
  rep_inv max_size s' ∧ count s' < capacity s'.
Proof.
  intros Hinv Hret. pose proof Hinv as [].
  destruct (dequeue_ret _ _ _ Hinv Hret)
    as [(Hc & _ & _ & ->)|(Hpos & _ & [(Hcap & Hq & ->)|(Hno & ->)])].
  - split; [done|lia].
  - pose proof (half_bounds _ Hcap). split; [|cbn; lia].
    apply rep_inv_signalled, rep_inv_resized;
      [by apply rep_inv_removed|cbn; lia..].
  - split; [|cbn; lia].
    by apply rep_inv_signalled, rep_inv_removed.
Qed.

Lemma set_producers_done_rep_inv s s' :
  rep_inv max_size s →
  set_producers_done s = Ret (tt, s') →
  rep_inv max_size s' ∧ count s' = count s ∧ capacity s' = capacity s.
Proof.
  intros Hinv. rewrite set_producers_done_eq. intros [= <-].
  by destruct Hinv.
Qed.

Lemma observable_inv s :
  observable max_size s → rep_inv max_size s ∧ count s < capacity s.
Proof.
  induction 1 as [c log s Hpos Hret|item s s' _ [IH _] Hret
                 |s r s' _ [IH _] Hret|s s' _ [IH Hlt] Hret].
  - destruct (construct_rep_inv _ _ _ Hpos Hret) as (? & ? & ? & _). split; [done|lia].
  - by eapply enqueue_rep_inv.
  - by eapply dequeue_rep_inv.
  - destruct (set_producers_done_rep_inv _ _ IH Hret) as (? & ? & ?). split; [done|lia].
Qed.

(** *** Completed calls and the content of the queue *)

Lemma enqueue_some item s :
  rep_inv max_size s → count s < capacity s →
  (count s + 1 = capacity s → 2 * capacity s ≤ max_size) →
  ∃ s', enqueue max_size item s = Ret (tt, s')
        ∧ contents s' = contents s ++ [item]
        ∧ count s' = count s + 1
        ∧ producers_done s' = producers_done s
        ∧ capacity s'
          = (if decide (count s + 1 = capacity s) then 2 * capacity s
             else capacity s).
Proof.
  intros Hinv Hlt Hmax. pose proof Hinv as [].
  rewrite enqueue_eq by done. rewrite decide_True by done.
  case_decide as Hfull.
  - rewrite decide_True by auto. eexists; split; [done|].
    rewrite contents_signalled, contents_resized
      by (try apply rep_inv_inserted; done || cbn; lia).
    by rewrite contents_inserted.
  - eexists; split; [done|].
    by rewrite contents_signalled, contents_inserted.
Qed.

Lemma dequeue_some s :
  rep_inv max_size s → 0 < count s →
  ∃ s', dequeue max_size s = Ret (Some (slot s 0), s')
        ∧ contents s = slot s 0 :: contents s'
        ∧ count s' = count s - 1
        ∧ producers_done s' = producers_done s
        ∧ capacity s'
          = (if decide (1 < capacity s ∧ count s - 1 ≤ capacity s / 4)
             then capacity s / 2 else capacity s).
Proof.
  intros Hinv Hpos. pose proof Hinv as [].
  rewrite dequeue_eq by done.
  case_decide as Hshrink.
  - destruct Hshrink as [Hcap Hq]. pose proof (half_bounds _ Hcap).
    eexists; split; [done|].
    rewrite contents_signalled, contents_resized
      by (try apply rep_inv_removed; done || cbn; lia).
    by rewrite <- contents_removed.
  - eexists; split; [done|].
    by rewrite contents_signalled, <- contents_removed.
Qed.

Lemma contents_nil s : count s = 0 → contents s = [].
Proof. intros Hc. unfold contents. by rewrite Hc. Qed.

Lemma contents_cons s : 0 < count s → contents s ≠ [].
Proof. intros Hc. by rewrite contents_removed. Qed.

(** *** Sequences of calls *)

Lemma run_cons c cs s :
  run max_size (c :: cs) s
  = match perform max_size c s with
    | Ret (r, s') =>
        match run max_size cs s' with
        | Ret (rs, s'') => Ret (r ++ rs, s'')
        | Block => Block
        | Abort e => Abort e
        end
    | Block => Block
    | Abort e => Abort e
    end.
Proof.
  cbn [run]. unfold mbind, monitor_bind, mret, monitor_ret.
  destruct (perform max_size c s) as [[r s']| |e]; [|done..].
  by destruct (run max_size cs s') as [[rs s'']| |e].
Qed.

Lemma perform_enqueue item s :
  perform max_size (Enqueue item) s
  = match enqueue max_size item s with
    | Ret (_, s') => Ret ([], s')
    | Block => Block
    | Abort e => Abort e
    end.
Proof.
  cbn [perform]. unfold mbind, monitor_bind, mret, monitor_ret.
  by destruct (enqueue max_size item s) as [[[] s']| |e].
Qed.

Lemma perform_dequeue s :
  perform max_size Dequeue s
  = match dequeue max_size s with
    | Ret (r, s') => Ret ([r], s')
    | Block => Block
    | Abort e => Abort e
    end.
Proof.
  cbn [perform]. unfold mbind, monitor_bind, mret, monitor_ret.
  by destruct (dequeue max_size s) as [[r s']| |e].
Qed.

Lemma perform_set_producers_done s :
  perform max_size SetProducersDone s
  = Ret ([], signalled (notify_all not_empty) (set_done true s)).
Proof. done. Qed.

Lemma run_app cs1 : ∀ cs2 s,
  run max_size (cs1 ++ cs2) s
  = match run max_size cs1 s with
    | Ret (rs1, s') =>
        match run max_size cs2 s' with
        | Ret (rs2, s'') => Ret (rs1 ++ rs2, s'')
        | Block => Block
        | Abort e => Abort e
        end
    | Block => Block
    | Abort e => Abort e
    end.
Proof.
  induction cs1 as [|c cs1 IH]; intros cs2 s.
  - cbn [app run]. unfold mret, monitor_ret.
    by destruct (run max_size cs2 s) as [[rs2 s'']| |e].
  - cbn [app]. rewrite !run_cons.
    destruct (perform max_size c s) as [[r s']| |e]; [|done..].
    rewrite IH.
    destruct (run max_size cs1 s') as [[rs1 s'']| |e]; [|done..].
    destruct (run max_size cs2 s'') as [[rs2 s''']| |e]; [|done..].
    by rewrite app_assoc.
Qed.

(** Enqueues that stay below the capacity leave it alone. *)
Lemma run_enqueue_below items : ∀ s,
  rep_inv max_size s →
  count s + Z.of_nat (length items) < capacity s →
  ∃ s', run max_size (Enqueue <$> items) s = Ret ([], s')
        ∧ rep_inv max_size s'
        ∧ capacity s' = capacity s
        ∧ count s' = count s + Z.of_nat (length items)
        ∧ contents s' = contents s ++ items.
Proof.
  induction items as [|x items IH]; intros s Hinv Hlen.
  - exists s. cbn. rewrite app_nil_r. split_and!; try done. lia.
  - cbn [length] in Hlen. pose proof Hinv as [].
    destruct (enqueue_some x s Hinv) as (s1 & Hret & Hcont & Hcount & _ & Hcap);
      [lia..|].
    rewrite decide_False in Hcap by lia.
    destruct (enqueue_rep_inv _ _ _ Hinv Hret) as [Hinv1 _].
    destruct (IH s1 Hinv1) as (s' & Hrun & ? & ? & ? & Hcont'); [lia|].
    exists s'. cbn [fmap list_fmap]. rewrite run_cons, perform_enqueue, Hret, Hrun.
    split_and!; try done; try (cbn [length]; lia).
    by rewrite Hcont', Hcont, <- app_assoc.
Qed.

(** Dequeuing as often as there are elements hands them out in order. *)
Lemma run_drain rest : ∀ s,
  rep_inv max_size s → contents s = rest →
  ∃ s', run max_size (replicate (length rest) Dequeue) s = Ret (Some <$> rest, s')
        ∧ count s' = 0.
Proof.
  induction rest as [|x rest IH]; intros s Hinv Hcont.
  - exists s. split; [done|].
    apply (f_equal length) in Hcont. rewrite length_contents in Hcont.
    destruct Hinv. cbn in Hcont. lia.
  - assert (0 < count s) as Hpos.
    { apply (f_equal length) in Hcont. rewrite length_contents in Hcont.
      cbn in Hcont. lia. }
    destruct (dequeue_some s Hinv Hpos) as (s1 & Hret & Hcons & _).
    rewrite Hcont in Hcons. injection Hcons as Hx Hrest.
    destruct (dequeue_rep_inv _ _ _ Hinv Hret) as [Hinv1 _].
    destruct (IH s1 Hinv1) as (s' & Hrun & Hzero); [done|].
    exists s'. cbn [length replicate].
    rewrite run_cons, perform_dequeue, Hret, Hrun. by rewrite <- Hx.
Qed.

(** *** Agreement with the reference queue *)

Lemma agrees_cons c cs s s1 r q1 :
  perform max_size c s = Ret (r, s1) →
  Fifo.perform c (abstraction s) = Ret (r, q1) →
  abstraction s1 = q1 →
  agrees (run max_size cs s1) (Fifo.run cs (abstraction s1)) →
  agrees (run max_size (c :: cs) s) (Fifo.run (c :: cs) (abstraction s)).
Proof.
  intros Hp Hq <- Hrest. rewrite run_cons, Hp. cbn [Fifo.run]. rewrite Hq.
  cbn [outcome_bind].
  destruct (run max_size cs s1) as [[rs s2]| |e],
    (Fifo.run cs (abstraction s1)) as [[rs' q2]| |e']; cbn in *; try done.
  by destruct Hrest as [-> ->].
Qed.

Lemma run_agrees cs : ∀ s,
  rep_inv max_size s → count s < capacity s →
  2 * (count s + Z.of_nat (length cs)) ≤ max_size →
  agrees (run max_size cs s) (Fifo.run cs (abstraction s)).
Proof.
  induction cs as [|c cs IH]; intros s Hinv Hlt Hmax; [done|].
  cbn [length] in Hmax. pose proof Hinv as [].
  destruct c as [item| |].
  - destruct (enqueue_some item s Hinv Hlt) as (s1 & Hret & Hcont & Hcount & Hdone & _);
      [lia|].
    destruct (enqueue_rep_inv _ _ _ Hinv Hret) as [Hinv1 Hlt1].
    apply (agrees_cons _ _ _ s1 [] (abstraction s1)).
    + by rewrite perform_enqueue, Hret.
    + unfold abstraction. by rewrite Hcont, Hdone.
    + done.
    + apply IH; [done..|lia].
  - destruct (decide (count s = 0)) as [Hzero|Hpos].
    + destruct (producers_done s) eqn:Hdone.
      * apply (agrees_cons _ _ _ s [None] (abstraction s)).
        -- by rewrite perform_dequeue, dequeue_end_of_stream.
        -- cbn. by rewrite contents_nil, Hdone.
        -- done.
        -- apply IH; [done..|lia].
      * rewrite run_cons, perform_dequeue, dequeue_blocks by done.
        cbn. by rewrite contents_nil, Hdone.
    + destruct (dequeue_some s Hinv) as (s1 & Hret & Hcont & Hcount & Hdone & _);
        [lia|].
      destruct (dequeue_rep_inv _ _ _ Hinv Hret) as [Hinv1 Hlt1].
      apply (agrees_cons _ _ _ s1 [Some (slot s 0)] (abstraction s1)).
      * by rewrite perform_dequeue, Hret.
      * cbn. rewrite Hcont. unfold abstraction. by rewrite Hdone.
      * done.
      * apply IH; [done..|lia].
  - apply (agrees_cons _ _ _ (signalled (notify_all not_empty) (set_done true s))
             [] (Fifo.Queue (contents s) true)); try done.
    apply IH; [by destruct Hinv|cbn; lia..].
Qed.

Lemma delivered_app rs1 rs2 :
  delivered (rs1 ++ rs2) = delivered rs1 ++ delivered rs2.
Proof. apply omap_app. Qed.

(** In the reference queue what was handed out, followed by what is still
    stored, is what was there followed by what was put in. *)
Lemma fifo_run_order cs : ∀ q rs q',
  Fifo.run cs q = Ret (rs, q') →
  delivered rs ++ Fifo.items q' = Fifo.items q ++ enqueued cs.
Proof.
  induction cs as [|c cs IH]; intros q rs q' Hrun.
  - injection Hrun as <- <-. cbn. by rewrite app_nil_r.
  - cbn [Fifo.run] in Hrun.
    destruct (Fifo.perform c q) as [[r q1]| |e] eqn:Hp; [|done..].
    cbn [outcome_bind] in Hrun.
    destruct (Fifo.run cs q1) as [[rs1 q2]| |e] eqn:Hr; [|done..].
    injection Hrun as <- <-. apply IH in Hr.
    rewrite delivered_app, <- app_assoc, Hr.
    destruct c as [item| |]; cbn in Hp.
    + injection Hp as <- <-. cbn. by rewrite <- app_assoc.
    + destruct (Fifo.items q) as [|x rest] eqn:Hq.
      * destruct (Fifo.closed q); [|done]. injection Hp as <- <-.
        cbn. by rewrite Hq.
      * injection Hp as <- <-. by cbn.
    + by injection Hp as <- <-.
Qed.

(** *** The log *)

Lemma string_append_nil_r t : String.append t EmptyString = t.
Proof. induction t as [|a t IH]; cbn; [done|]. by rewrite IH. Qed.

Lemma string_append_assoc t u v :
  String.append (String.append t u) v = String.append t (String.append u v).
Proof. induction t as [|a t IH]; cbn; [done|]. by rewrite IH. Qed.

Lemma log_text_app ls1 ls2 :
  log_text (ls1 ++ ls2) = String.append (log_text ls1) (log_text ls2).
Proof.
  unfold log_text. induction ls1 as [|l ls1 IH]; cbn [app foldr]; [done|].
  by rewrite IH, string_append_assoc.
Qed.

Lemma perform_rep_inv c s r s' :
  rep_inv max_size s →
  perform max_size c s = Ret (r, s') →
  rep_inv max_size s'.
Proof.
  intros Hinv. destruct c as [item| |].
  - rewrite perform_enqueue.
    destruct (enqueue max_size item s) as [[[] s1]| |e] eqn:Hret; [|done..].
    intros [= <- <-]. by eapply enqueue_rep_inv.
  - rewrite perform_dequeue.
    destruct (dequeue max_size s) as [[r1 s1]| |e] eqn:Hret; [|done..].
    intros [= <- <-]. by eapply dequeue_rep_inv.
  - rewrite perform_set_producers_done. intros [= <- <-]. by destruct Hinv.
Qed.

(** A completed call has written the line of its resize, if it made one. *)
Lemma perform_log c s r s' :
  rep_inv max_size s →
  perform max_size c s = Ret (r, s') →
  log_file s'
  = String.append (log_file s)
      (log_text (resize_line <$>
         (if decide (capacity s' = capacity s) then [] else [capacity s']))).
Proof.
  intros Hinv. pose proof Hinv as []. destruct c as [item| |].
  - rewrite perform_enqueue.
    destruct (enqueue max_size item s) as [[[] s1]| |e] eqn:Hret; [|done..].
    intros [= <- <-].
    destruct (enqueue_ret _ _ _ Hinv Hret) as [Hlt [(Hfull & Hmax & ->)|(Hfull & ->)]];
      cbn [signalled set_notified resized inserted capacity log_file].
    + rewrite decide_False by lia. cbn. by rewrite string_append_nil_r.
    + rewrite decide_True by done. cbn. by rewrite string_append_nil_r.
  - rewrite perform_dequeue.
    destruct (dequeue max_size s) as [[r1 s1]| |e] eqn:Hret; [|done..].
    intros [= <- <-].
    destruct (dequeue_ret _ _ _ Hinv Hret)
      as [(Hc & _ & _ & ->)|(Hpos & _ & [(Hcap & Hq & ->)|(Hno & ->)])];
      cbn [signalled set_notified resized removed capacity log_file].
    + rewrite decide_True by done. cbn. by rewrite string_append_nil_r.
    + pose proof (half_bounds _ Hcap).
      rewrite decide_False by lia. cbn. by rewrite string_append_nil_r.
    + rewrite decide_True by done. cbn. by rewrite string_append_nil_r.
  - rewrite perform_set_producers_done. intros [= <- <-].
    cbn. rewrite decide_True by done. cbn. by rewrite string_append_nil_r.
Qed.

Lemma run_log cs : ∀ s rs s',
  rep_inv max_size s →
  run max_size cs s = Ret (rs, s') →
  log_file s'
  = String.append (log_file s) (log_text (resize_line <$> resizes max_size cs s)).
Proof.
  induction cs as [|c cs IH]; intros s rs s' Hinv.
  - intros [= <- <-]. cbn. by rewrite string_append_nil_r.
  - rewrite run_cons. cbn [resizes].
    destruct (perform max_size c s) as [[r s1]| |e] eqn:Hp; [|done..].
    destruct (run max_size cs s1) as [[rs1 s2]| |e] eqn:Hr; [|done..].
    intros [= <- <-].
    rewrite (IH _ _ _ (perform_rep_inv _ _ _ _ Hinv Hp) Hr).
    rewrite (perform_log _ _ _ _ Hinv Hp).
    by rewrite fmap_app, log_text_app, string_append_assoc.
Qed.

Lemma resize_line_single n :
  ∃ body, resize_line n = String.append body endl ∧ single_line body = true.
Proof.
  exists (String.append "La cola cambió de tamaño a " (decimal n)).
  unfold resize_line. rewrite string_append_assoc. split; [done|].
  rewrite single_line_append, single_line_decimal. done.
Qed.

(** ** The properties of the specification *)

(** C1. Representation invariant: every state that the constructor (with a
    positive initial capacity) or a completed [enqueue], [dequeue] or
    [set_producers_done] leaves satisfies [0 <= count <= capacity],
    [capacity >= 1], [front] and [rear] in [[0, capacity)] and
    [rear = (front + count) mod capacity]; and [resize], called as
    [enqueue] and [dequeue] call it (on a state that satisfies the
    invariant, with a new capacity of at least 1 that holds the [count]
    elements), leaves such a state again. *)
Theorem representation_invariant :
  (∀ s, observable max_size s → rep_inv max_size s) ∧
  (∀ n s s',
     rep_inv max_size s → 1 ≤ n → count s ≤ n →
     resize max_size n s = Ret (tt, s') →
     rep_inv max_size s').
Proof.
  split.
  - intros s Hobs. by apply observable_inv.
  - intros n s s' Hinv Hn Hc Hret.
    destruct (decide (n ≤ max_size)) as [Hmax|Hmax].
    + rewrite resize_eq in Hret by done. injection Hret as <-.
      by apply rep_inv_resized.
    + by rewrite resize_length_error in Hret by lia.
Qed.

(** C2. Exactly-once FIFO delivery: started from the empty monitor, any
    sequence of calls that the allocator can serve behaves as on the
    plain unbounded FIFO list: the same results in the same order, the
    same calls suspended, and a final content equal to the list's.  In
    particular the items handed out, followed by the items still stored,
    are the items enqueued, in order: nothing lost, nothing duplicated. *)
Theorem fifo_refinement init_capacity log cs :
  0 < init_capacity ≤ max_size →
  2 * Z.of_nat (length cs) ≤ max_size →
  ∃ s0, construct max_size init_capacity log = Ret s0
        ∧ agrees (run max_size cs s0) (Fifo.run cs Fifo.empty)
        ∧ ∀ rs s, run max_size cs s0 = Ret (rs, s) →
                  delivered rs ++ contents s = enqueued cs.
Proof.
  intros [Hpos Hmax] Hlen.
  rewrite construct_eq, decide_True by done. eexists; split; [done|].
  set (s0 := Monitor _ _ _ _ _ _ _ _).
  assert (construct max_size init_capacity log = Ret s0) as Hc
    by (by rewrite construct_eq, decide_True).
  destruct (construct_rep_inv _ _ _ Hpos Hc) as (Hinv & Hzero & Hcap & _).
  assert (abstraction s0 = Fifo.empty) as Habs by done.
  pose proof (run_agrees cs s0 Hinv) as Hagree.
  rewrite Habs in Hagree.
  assert (agrees (run max_size cs s0) (Fifo.run cs Fifo.empty)) as Hag
    by (apply Hagree; lia).
  split; [done|].
  intros rs s Hrun. rewrite Hrun in Hag.
  destruct (Fifo.run cs Fifo.empty) as [[rs' q]| |e] eqn:Hq; [|done..].
  destruct Hag as [-> <-].
  by apply fifo_run_order in Hq.
Qed.

(** C3. Growth trigger: from the empty monitor of capacity [C], the
    capacity is still [C] after each of the first [C - 1] insertions and
    is [2 * C] after the [C]-th; the next [dequeue] returns the item
    inserted first. *)
Theorem growth_trigger init_capacity log items :
  0 < init_capacity →
  2 * init_capacity ≤ max_size →
  Z.of_nat (length items) = init_capacity →
  ∃ s0 s,
    construct max_size init_capacity log = Ret s0
    ∧ (∀ k : nat, Z.of_nat k < init_capacity →
         ∃ sk, run max_size (Enqueue <$> take k items) s0 = Ret ([], sk)
               ∧ capacity sk = init_capacity)
    ∧ run max_size (Enqueue <$> items) s0 = Ret ([], s)
    ∧ capacity s = 2 * init_capacity
    ∧ ∃ s', dequeue max_size s = Ret (head items, s').
Proof.
  intros Hpos Hmax Hlen.
  rewrite construct_eq, decide_True by lia.
  set (s0 := Monitor _ _ _ _ _ _ _ _).
  assert (construct max_size init_capacity log = Ret s0) as Hc
    by (by rewrite construct_eq, decide_True by lia).
  destruct (construct_rep_inv _ _ _ Hpos Hc) as (Hinv & Hzero & Hcap & _).
  assert (∀ k : nat, Z.of_nat k < init_capacity →
            ∃ sk, run max_size (Enqueue <$> take k items) s0 = Ret ([], sk)
                  ∧ rep_inv max_size sk
                  ∧ capacity sk = init_capacity
                  ∧ count sk = Z.of_nat k
                  ∧ contents sk = take k items) as Hbelow.
  { intros k Hk.
    destruct (run_enqueue_below (take k items) s0 Hinv)
      as (sk & Hrun & Hinvk & Hcapk & Hcountk & Hcontk).
    { rewrite length_take. lia. }
    exists sk. rewrite length_take in Hcountk.
    split_and!; done || lia. }
  destruct (Hbelow (Nat.pred (length items))) as (s1 & Hrun1 & Hinv1 & Hcap1 & Hcount1 & Hcont1);
    [lia|].
  destruct (lookup_lt_is_Some_2 items (Nat.pred (length items))) as [x Hx]; [lia|].
  assert (items = take (Nat.pred (length items)) items ++ [x]) as Hsplit.
  { rewrite <- (take_S_r _ _ _ Hx).
    replace (S (Nat.pred (length items))) with (length items) by lia.
    by rewrite firstn_all. }
  destruct (enqueue_some x s1 Hinv1) as (s & Hret & Hcont & Hcount & _ & Hcaps);
    [lia..|].
  rewrite decide_True in Hcaps by lia.
  destruct (enqueue_rep_inv _ _ _ Hinv1 Hret) as [Hinvs _].
  destruct (dequeue_some s Hinvs) as (s' & Hdeq & Hhead & _); [lia|].
  exists s0, s. split; [done|]. split.
  { intros k Hk. destruct (Hbelow k Hk) as (sk & ? & _ & ? & _). by exists sk. }
  split.
  { rewrite Hsplit at 1. rewrite fmap_app, run_app, Hrun1.
    cbn [fmap list_fmap]. rewrite run_cons, perform_enqueue, Hret. done. }
  split; [lia|].
  exists s'. rewrite Hdeq. do 2 f_equal.
  rewrite Hcont, Hcont1, <- Hsplit in Hhead.
  destruct items as [|y items']; [cbn in Hlen; lia|].
  cbn. by injection Hhead as <-.
Qed.

(** C4. Shrink trigger: in a state of capacity [C > 1] whose count is at
    most [C / 4] after one removal, [dequeue] returns the front element and
    leaves the capacity at [C / 2]; the remaining elements are then
    dequeued in their original order. *)
Theorem shrink_trigger s :
  rep_inv max_size s →
  1 < capacity s →
  0 < count s →
  count s - 1 ≤ capacity s / 4 →
  ∃ x rest s' s'',
    contents s = x :: rest
    ∧ dequeue max_size s = Ret (Some x, s')
    ∧ capacity s' = capacity s / 2
    ∧ contents s' = rest
    ∧ run max_size (replicate (length rest) Dequeue) s' = Ret (Some <$> rest, s'').
Proof.
  intros Hinv Hcap Hpos Hq.
  destruct (dequeue_some s Hinv Hpos) as (s' & Hret & Hcont & _ & _ & Hcap').
  rewrite decide_True in Hcap' by done.
  destruct (dequeue_rep_inv _ _ _ Hinv Hret) as [Hinv' _].
  destruct (run_drain (contents s') s' Hinv' eq_refl) as (s'' & Hrun & _).
  by exists (slot s 0), (contents s'), s', s''.
Qed.

(** C5. End of stream: with [count == 0] and [producers_done] set,
    [dequeue] completes (it does not suspend), returns "no item" and
    removes nothing. *)
Theorem end_of_stream_no_item s :
  count s = 0 → producers_done s = true →
  ∃ s', dequeue max_size s = Ret (None, s')
        ∧ count s' = 0 ∧ contents s' = contents s.
Proof.
  intros Hc Hd. exists s. by rewrite dequeue_end_of_stream.
Qed.

(** C8. Policy asymmetry: in a state that satisfies the invariant a
    completed [enqueue] leaves the capacity as it was or doubled, a
    completed [dequeue] leaves it as it was or halved, and neither leaves
    it below 1. *)
Theorem policy_asymmetry s :
  rep_inv max_size s →
  (∀ item s', enqueue max_size item s = Ret (tt, s') →
     capacity s ≤ capacity s'
     ∧ (capacity s' = capacity s ∨ capacity s' = 2 * capacity s)
     ∧ 1 ≤ capacity s')
  ∧ (∀ r s', dequeue max_size s = Ret (r, s') →
       capacity s' ≤ capacity s
       ∧ (capacity s' = capacity s ∨ capacity s' = capacity s / 2)
       ∧ 1 ≤ capacity s').
Proof.
  intros Hinv. pose proof Hinv as []. split.
  - intros item s' Hret.
    destruct (enqueue_ret _ _ _ Hinv Hret) as [Hlt [(Hfull & Hmax & ->)|(Hfull & ->)]];
      cbn; lia.
  - intros r s' Hret.
    destruct (dequeue_ret _ _ _ Hinv Hret)
      as [(Hc & _ & _ & ->)|(Hpos & _ & [(Hcap & Hq & ->)|(Hno & ->)])];
      cbn; try lia.
    pose proof (half_bounds _ Hcap). lia.
Qed.

(** C9. Between calls the buffer is never full: every state left by the
    constructor (with a positive capacity) or by a completed call has
    [count < capacity], so an [enqueue] entered in such a state finds its
    wait condition true and does not suspend. *)
Theorem never_full_between_calls s :
  observable max_size s →
  count s < capacity s ∧ ∀ item, enqueue max_size item s ≠ Block.
Proof.
  intros Hobs. destruct (observable_inv s Hobs) as [Hinv Hlt].
  split; [done|]. intros item. rewrite enqueue_eq by done.
  rewrite decide_True by done. by repeat case_decide.
Qed.

(** C10. On the end-of-stream path [dequeue] returns the very state it
    was called in: buffer, [front], [rear], [count], [capacity] and
    [producers_done] keep their values, nothing is written to the log and
    no notification is issued. *)
Theorem end_of_stream_state_unchanged s :
  count s = 0 → producers_done s = true →
  ∃ s', dequeue max_size s = Ret (None, s')
        ∧ buffer s' = buffer s ∧ front s' = front s ∧ rear s' = rear s
        ∧ count s' = count s ∧ capacity s' = capacity s
        ∧ producers_done s' = producers_done s
        ∧ log_file s' = log_file s ∧ notified s' = notified s.
Proof.
  intros Hc Hd. exists s. by rewrite dequeue_end_of_stream.
Qed.

(** C7, as the code has it.  A completed [resize] sets the capacity and
    appends to the log the text [La cola cambió de tamaño a <capacity>]
    followed by a line feed, and nothing else; that text is one line; and
    after a sequence of calls the log holds, behind what it held before,
    the lines of the resizes in the order in which they happened. *)
Theorem resize_log_lines :
  (∀ n s s',
     resize max_size n s = Ret (tt, s') →
     capacity s' = n
     ∧ log_file s'
       = String.append (log_file s)
           (String.append "La cola cambió de tamaño a "
              (String.append (decimal n) endl))
     ∧ single_line (String.append "La cola cambió de tamaño a " (decimal n))
       = true)
  ∧ (∀ cs s rs s',
       rep_inv max_size s →
       run max_size cs s = Ret (rs, s') →
       log_file s'
       = String.append (log_file s)
           (log_text (resize_line <$> resizes max_size cs s))).
Proof.
  split.
  - intros n s s' Hret.
    destruct (resize_log _ _ _ Hret) as (Hcap & Hlog & _).
    split_and!; [done..|].
    by rewrite single_line_append, single_line_decimal.
  - intros cs s rs s' Hinv Hrun. by eapply run_log.
Qed.

(** *** The consumer *)

Lemma bind_ret_inv {A B} (m : M A) (f : A → M B) s b s' :
  (m ≫= f) s = Ret (b, s') →
  ∃ a s1, m s = Ret (a, s1) ∧ f a s1 = Ret (b, s').
Proof.
  unfold mbind, monitor_bind.
  destruct (m s) as [[a s1]| |e]; [|done..]. intros Hf. by exists a, s1.
Qed.

(** [dequeue] returns [false] on one path only, the one that has just
    seen [producers_done] set. *)
Lemma dequeue_none_done s s' :
  dequeue max_size s = Ret (None, s') → producers_done s' = true.
Proof.
  unfold dequeue. intros Hret.
  apply bind_ret_inv in Hret as ([] & s1 & Hwait & Hret).
  unfold wait in Hwait. destruct (negb _); [|done]. injection Hwait as <-.
  apply bind_ret_inv in Hret as (stop & s1 & Hstop & Hret).
  injection Hstop as <- <-.
  destruct (count s =? 0); cbn [andb] in Hret.
  - destruct (producers_done s) eqn:Hd.
    + by injection Hret as <-.
    + exfalso.
      repeat (apply bind_ret_inv in Hret as (? & ? & _ & Hret)).
      done.
  - exfalso.
    repeat (apply bind_ret_inv in Hret as (? & ? & _ & Hret)).
    done.
Qed.

(** A turn of the consumer's loop ends in [Draining], or in [Exited] with
    [producers_done] set; the branch that compares the idle time with
    [max_wait_time] is never reached. *)
Lemma consumer_never_idle max_wait_time start_time now_item now_empty s ph t s' :
  consumer_iteration max_size max_wait_time start_time now_item now_empty s
  = Ret ((ph, t), s') →
  ph = Draining ∨ ph = Exited ∧ producers_done s' = true.
Proof.
  unfold consumer_iteration. intros Hret.
  apply bind_ret_inv in Hret as (got & s1 & Hdeq & Hret).
  destruct got as [item|].
  - injection Hret as <- _ _. by left.
  - apply dequeue_none_done in Hdeq.
    apply bind_ret_inv in Hret as (done' & s2 & Hget & Hret).
    injection Hget as <- <-. rewrite Hdeq in Hret.
    injection Hret as <- _ <-. by right.
Qed.

End Correctness.

(** C6. On an empty queue whose producers are still active the consumer
    does not receive an empty result: its call of [dequeue] suspends, so
    the turn neither polls again nor exits, however long the consumer has
    been idle (here 5 s against a limit of 1 s). *)
Theorem consumer_idle_timeout_unreachable :
  ∃ s, construct libstdcxx_max_size 4 "" = Ret s
       ∧ count s = 0
       ∧ producers_done s = false
       ∧ consumer_iteration libstdcxx_max_size 1 0 0 (5 * 10 ^ 9) s = Block.
Proof. eexists. split; [reflexivity|]. by vm_compute. Qed.

(** C7 as the specification words it fails: the line that the first
    resize of a monitor of capacity 1 writes is not
    [Queue resized to 2]. *)
Lemma resize_line_is_not_queue_resized_to :
  ∃ s s', construct libstdcxx_max_size 1 "" = Ret s
          ∧ enqueue libstdcxx_max_size 7 s = Ret (tt, s')
          ∧ capacity s' = 2
          ∧ log_file s'
            = String.append "La cola cambió de tamaño a 2" endl
          ∧ log_file s'
            ≠ String.append "Queue resized to "
                (String.append (decimal (capacity s')) endl).
Proof.
  do 2 eexists. split; [reflexivity|]. split; [by vm_compute|].
  split; [done|]. split; [done|]. by vm_compute.
Qed.

(** ** The properties at work on concrete monitors *)

Lemma wrapped_monitor_rep_inv : rep_inv libstdcxx_max_size wrapped_monitor.
Proof. split; cbn; first [reflexivity | by vm_compute]. Qed.

Lemma representation_invariant_witness :
  libstdcxx_max_size < 2 ^ 63 ∧
  rep_inv libstdcxx_max_size
    (Monitor [7; 0] 2 0 1 1 false (resize_line 2) [notify_one not_empty]).
Proof.
  split; [reflexivity|].
  apply (proj1 (representation_invariant libstdcxx_max_size eq_refl)).
  apply (obs_enqueue _ 7 (Monitor [0] 1 0 0 0 false "" [])).
  - apply (obs_construct _ 1 ""); reflexivity.
  - by vm_compute.
Defined.

Lemma fifo_refinement_witness :
  let cs := [Enqueue 1; Enqueue 2; Dequeue; Enqueue 3; Dequeue; Dequeue;
             SetProducersDone; Dequeue] in
  libstdcxx_max_size < 2 ^ 63 ∧
  0 < 1 ≤ libstdcxx_max_size ∧
  2 * Z.of_nat (length cs) ≤ libstdcxx_max_size ∧
  ∃ s0, construct libstdcxx_max_size 1 "" = Ret s0
        ∧ agrees (run libstdcxx_max_size cs s0) (Fifo.run cs Fifo.empty)
        ∧ ∀ rs s, run libstdcxx_max_size cs s0 = Ret (rs, s) →
                  delivered rs ++ contents s = enqueued cs.
Proof.
  intros cs. split; [reflexivity|]. split; [by vm_compute|].
  split; [by vm_compute|].
  apply (fifo_refinement libstdcxx_max_size eq_refl 1 "" cs); by vm_compute.
Defined.

Lemma growth_trigger_witness :
  libstdcxx_max_size < 2 ^ 63 ∧
  0 < 4 ∧
  2 * 4 ≤ libstdcxx_max_size ∧
  Z.of_nat (length [10; 20; 30; 40]) = 4 ∧
  ∃ s0 s,
    construct libstdcxx_max_size 4 "" = Ret s0
    ∧ (∀ k : nat, Z.of_nat k < 4 →
         ∃ sk, run libstdcxx_max_size (Enqueue <$> take k [10; 20; 30; 40]) s0
               = Ret ([], sk)
               ∧ capacity sk = 4)
    ∧ run libstdcxx_max_size (Enqueue <$> [10; 20; 30; 40]) s0 = Ret ([], s)
    ∧ capacity s = 2 * 4
    ∧ ∃ s', dequeue libstdcxx_max_size s = Ret (head [10; 20; 30; 40], s').
Proof.
  split; [reflexivity|]. split; [reflexivity|]. split; [by vm_compute|].
  split; [reflexivity|].
  apply (growth_trigger libstdcxx_max_size eq_refl 4 "" [10; 20; 30; 40]);
    by vm_compute.
Defined.

Lemma shrink_trigger_witness :
  libstdcxx_max_size < 2 ^ 63 ∧
  rep_inv libstdcxx_max_size wrapped_monitor ∧
  1 < capacity wrapped_monitor ∧
  0 < count wrapped_monitor ∧
  count wrapped_monitor - 1 ≤ capacity wrapped_monitor / 4 ∧
  ∃ x rest s' s'',
    contents wrapped_monitor = x :: rest
    ∧ dequeue libstdcxx_max_size wrapped_monitor = Ret (Some x, s')
    ∧ capacity s' = capacity wrapped_monitor / 2
    ∧ contents s' = rest
    ∧ run libstdcxx_max_size (replicate (length rest) Dequeue) s'
      = Ret (Some <$> rest, s'').
Proof.
  split; [reflexivity|]. split; [exact wrapped_monitor_rep_inv|].
  split; [reflexivity|]. split; [reflexivity|]. split; [by vm_compute|].
  apply (shrink_trigger libstdcxx_max_size eq_refl wrapped_monitor);
    [exact wrapped_monitor_rep_inv|reflexivity|reflexivity|by vm_compute].
Defined.

Lemma end_of_stream_no_item_witness :
  count finished_monitor = 0 ∧
  producers_done finished_monitor = true ∧
  ∃ s', dequeue libstdcxx_max_size finished_monitor = Ret (None, s')
        ∧ count s' = 0 ∧ contents s' = contents finished_monitor.
Proof.
  split; [reflexivity|]. split; [reflexivity|].
  apply (end_of_stream_no_item libstdcxx_max_size finished_monitor); reflexivity.
Defined.

Lemma policy_asymmetry_witness :
  libstdcxx_max_size < 2 ^ 63 ∧
  rep_inv libstdcxx_max_size wrapped_monitor ∧
  (∀ item s', enqueue libstdcxx_max_size item wrapped_monitor = Ret (tt, s') →
     capacity wrapped_monitor ≤ capacity s'
     ∧ (capacity s' = capacity wrapped_monitor
        ∨ capacity s' = 2 * capacity wrapped_monitor)
     ∧ 1 ≤ capacity s')
  ∧ (∀ r s', dequeue libstdcxx_max_size wrapped_monitor = Ret (r, s') →
       capacity s' ≤ capacity wrapped_monitor
       ∧ (capacity s' = capacity wrapped_monitor
          ∨ capacity s' = capacity wrapped_monitor / 2)
       ∧ 1 ≤ capacity s').
Proof.
  split; [reflexivity|]. split; [exact wrapped_monitor_rep_inv|].
  apply (policy_asymmetry libstdcxx_max_size eq_refl wrapped_monitor).
  exact wrapped_monitor_rep_inv.
Defined.

Lemma never_full_between_calls_witness :
  libstdcxx_max_size < 2 ^ 63 ∧
  observable libstdcxx_max_size (Monitor [0; 0; 0] 3 0 0 0 false "" []) ∧
  count (Monitor [0; 0; 0] 3 0 0 0 false "" [])
  < capacity (Monitor [0; 0; 0] 3 0 0 0 false "" []) ∧
  ∀ item,
    enqueue libstdcxx_max_size item (Monitor [0; 0; 0] 3 0 0 0 false "" [])
    ≠ Block.
Proof.
  assert (observable libstdcxx_max_size (Monitor [0; 0; 0] 3 0 0 0 false "" []))
    as Hobs by (apply (obs_construct _ 3 ""); reflexivity).
  split; [reflexivity|]. split; [exact Hobs|].
  exact (never_full_between_calls libstdcxx_max_size eq_refl _ Hobs).
Defined.

Lemma end_of_stream_state_unchanged_witness :
  count finished_monitor = 0 ∧
  producers_done finished_monitor = true ∧
  ∃ s', dequeue libstdcxx_max_size finished_monitor = Ret (None, s')
        ∧ buffer s' = buffer finished_monitor
        ∧ front s' = front finished_monitor
        ∧ rear s' = rear finished_monitor
        ∧ count s' = count finished_monitor
        ∧ capacity s' = capacity finished_monitor
        ∧ producers_done s' = producers_done finished_monitor
        ∧ log_file s' = log_file finished_monitor
        ∧ notified s' = notified finished_monitor.
Proof.
  split; [reflexivity|]. split; [reflexivity|].
  apply (end_of_stream_state_unchanged libstdcxx_max_size finished_monitor);
    reflexivity.
Defined.

Lemma resize_log_lines_witness :
  libstdcxx_max_size < 2 ^ 63 ∧
  resize libstdcxx_max_size 4 wrapped_monitor
  = Ret (tt, Monitor [11; 12; 13; 0] 4 0 3 3 false (resize_line 4) []) ∧
  log_file (Monitor [11; 12; 13; 0] 4 0 3 3 false (resize_line 4) [])
  = String.append (log_file wrapped_monitor)
      (String.append "La cola cambió de tamaño a "
         (String.append (decimal 4) endl)).
Proof.
  assert (resize libstdcxx_max_size 4 wrapped_monitor
          = Ret (tt, Monitor [11; 12; 13; 0] 4 0 3 3 false (resize_line 4) []))
    as Hret by (by vm_compute).
  split; [reflexivity|]. split; [exact Hret|].
  exact (proj1 (proj2 (proj1 (resize_log_lines libstdcxx_max_size eq_refl)
                         4 wrapped_monitor _ Hret))).
Defined.

(** * Further properties of the monitor and of its threads *)

Section Threads.

Variable max_size : Z.
Hypothesis max_size_bound : max_size < 2 ^ 63.

(** ** resize *)

(** X1. [resize] moves the content to the start of the new vector: in a
    state that satisfies the invariant, a new capacity [n >= 1] that holds
    the [count] elements and that the allocator grants gives a completed
    call, after which [front] is 0, the vector is the content followed by
    zeros up to [n] elements, and the content is what it was. *)
Theorem resize_relinearizes n s :
  rep_inv max_size s → 1 ≤ n → count s ≤ n → n ≤ max_size →
  ∃ s', resize max_size n s = Ret (tt, s')
        ∧ front s' = 0 ∧ capacity s' = n ∧ count s' = count s
        ∧ buffer s' = contents s ++ replicate (Z.to_nat (n - count s)) 0
        ∧ contents s' = contents s.
Proof.
  intros Hinv Hn Hc Hmax. exists (resized n s).
  rewrite (resize_eq max_size max_size_bound) by done.
  split_and!; try done. by apply (contents_resized max_size).
Qed.

(** ** The producers-finished flag *)

Lemma keeps_flag_bind {A B} (m : M A) (f : A → M B) :
  keeps_flag m → (∀ a, keeps_flag (f a)) → keeps_flag (m ≫= f).
Proof.
  intros Hm Hf s b s' Hret.
  apply bind_ret_inv in Hret as (a & s1 & Hm1 & Hf1).
  rewrite (Hf _ _ _ _ Hf1). by eapply Hm.
Qed.

Lemma keeps_flag_ret {A} (a : A) : keeps_flag (mret a).
Proof. by intros s b s' [= _ <-]. Qed.

Lemma keeps_flag_gets {A} (f : monitor → A) : keeps_flag (gets f).
Proof. by intros s b s' [= _ <-]. Qed.

Lemma keeps_flag_wait cv pred : keeps_flag (wait cv pred).
Proof.
  intros s b s'. unfold wait. destruct (pred s); [|done]. by intros [= _ <-].
Qed.

Lemma keeps_flag_lift {A} (f : monitor → outcome A) :
  keeps_flag (λ s, lift (f s) s).
Proof.
  intros s b s'. unfold lift. destruct (f s); cbn; [|done..]. by intros [= _ <-].
Qed.

Lemma keeps_flag_modify (f : monitor → monitor) :
  (∀ s, producers_done (f s) = producers_done s) → keeps_flag (modify f).
Proof. intros Hf s b s' [= _ <-]. apply Hf. Qed.

Lemma keeps_flag_resize n : keeps_flag (resize max_size n).
Proof.
  intros s [] s' Hret. by destruct (resize_log _ _ _ _ Hret) as (_ & _ & _ & ? & _).
Qed.

Lemma keeps_flag_enqueue item : keeps_flag (enqueue max_size item).
Proof.
  unfold enqueue, notify.
  repeat first
    [ apply keeps_flag_bind; [|intros ?]
    | apply keeps_flag_wait
    | apply keeps_flag_lift
    | apply keeps_flag_gets
    | apply keeps_flag_ret
    | apply keeps_flag_resize
    | by apply keeps_flag_modify
    | match goal with |- keeps_flag (if ?b then _ else _) => destruct b end ].
Qed.

Lemma keeps_flag_dequeue : keeps_flag (dequeue max_size).
Proof.
  unfold dequeue, notify.
  repeat first
    [ apply keeps_flag_bind; [|intros ?]
    | apply keeps_flag_wait
    | apply keeps_flag_lift
    | apply keeps_flag_gets
    | apply keeps_flag_ret
    | apply keeps_flag_resize
    | by apply keeps_flag_modify
    | match goal with |- keeps_flag (if ?b then _ else _) => destruct b end ].
Qed.

Lemma run_producers_done cs : ∀ s rs s',
  run max_size cs s = Ret (rs, s') →
  producers_done s' = producers_done s || existsb is_set_producers_done cs.
Proof.
  induction cs as [|c cs IH]; intros s rs s'.
  - intros [= _ <-]. by rewrite orb_false_r.
  - rewrite run_cons.
    destruct (perform max_size c s) as [[r s1]| |e] eqn:Hp; [|done..].
    destruct (run max_size cs s1) as [[rs1 s2]| |e] eqn:Hr; [|done..].
    intros [= _ <-]. rewrite (IH _ _ _ Hr). cbn [existsb].
    destruct c as [item| |].
    + rewrite perform_enqueue in Hp.
      destruct (enqueue max_size item s) as [[[] s1']| |e] eqn:He; [|done..].
      injection Hp as _ <-. by rewrite (keeps_flag_enqueue _ _ _ _ He).
    + rewrite perform_dequeue in Hp.
      destruct (dequeue max_size s) as [[r1 s1']| |e] eqn:Hd; [|done..].
      injection Hp as _ <-. by rewrite (keeps_flag_dequeue _ _ _ Hd).
    + rewrite perform_set_producers_done in Hp. injection Hp as _ <-.
      cbn. by rewrite orb_true_r.
Qed.

(** X2. The flag is set by [set_producers_done] and by nothing else, and
    is never reset: after a completed sequence of calls it is set exactly
    when it was set before or the sequence holds a call of
    [set_producers_done].  This holds in every state. *)
Theorem producers_done_after_run cs s rs s' :
  run max_size cs s = Ret (rs, s') →
  producers_done s' = producers_done s || existsb is_set_producers_done cs.
Proof. apply run_producers_done. Qed.

(** ** Shutdown *)

Lemma run_end_of_stream (k : nat) s :
  count s = 0 → producers_done s = true →
  run max_size (replicate k Dequeue) s = Ret (replicate k None, s).
Proof.
  intros Hc Hd. induction k as [|k IH]; [done|].
  cbn [replicate]. rewrite run_cons, perform_dequeue.
  by rewrite dequeue_end_of_stream, IH.
Qed.

Lemma run_drain_then_end s (k : nat) :
  rep_inv max_size s → producers_done s = true →
  ∃ s', run max_size (replicate (length (contents s) + k) Dequeue) s
        = Ret ((Some <$> contents s) ++ replicate k None, s')
        ∧ count s' = 0 ∧ producers_done s' = true.
Proof.
  intros Hinv Hd.
  destruct (run_drain max_size max_size_bound (contents s) s Hinv eq_refl)
    as (s' & Hrun & Hzero).
  assert (producers_done s' = true) as Hd'.
  { rewrite (run_producers_done _ _ _ _ Hrun), Hd. done. }
  exists s'. rewrite replicate_add, run_app, Hrun.
  by rewrite run_end_of_stream.
Qed.

(** X3. Once the producers have finished no [dequeue] suspends: from a
    state that satisfies the invariant, with the flag set, [dequeue]
    called as often as one likes hands out the stored items in order,
    each once, and answers "no item" from then on. *)
Theorem drain_after_producers_done s (k : nat) :
  rep_inv max_size s → producers_done s = true →
  ∃ s', run max_size (replicate (length (contents s) + k) Dequeue) s
        = Ret ((Some <$> contents s) ++ replicate k None, s')
        ∧ count s' = 0 ∧ producers_done s' = true.
Proof. apply run_drain_then_end. Qed.

(** ** Notifications *)

Lemma perform_notified c s r s' :
  rep_inv max_size s →
  perform max_size c s = Ret (r, s') →
  notified s' = notified s ++ signals_of c r.
Proof.
  intros Hinv. destruct c as [item| |].
  - rewrite perform_enqueue.
    destruct (enqueue max_size item s) as [[[] s1]| |e] eqn:Hret; [|done..].
    intros [= <- <-].
    by destruct (enqueue_ret max_size max_size_bound _ _ _ Hinv Hret)
      as [_ [(_ & _ & ->)|(_ & ->)]].
  - rewrite perform_dequeue.
    destruct (dequeue max_size s) as [[r1 s1]| |e] eqn:Hret; [|done..].
    intros [= <- <-].
    destruct (dequeue_ret max_size max_size_bound _ _ _ Hinv Hret)
      as [(_ & _ & -> & ->)|(_ & -> & [(_ & _ & ->)|(_ & ->)])]; cbn; try done.
    by rewrite app_nil_r.
  - rewrite perform_set_producers_done. by intros [= <- <-].
Qed.

(** X4. Wake-ups: in a state that satisfies the invariant a completed
    [enqueue] issues exactly one [not_empty.notify_one()], also when it
    resized; a [dequeue] that returned an item exactly one
    [not_full.notify_one()]; a [dequeue] that reported the end of the
    stream none; [set_producers_done] one [not_empty.notify_all()]. *)
Theorem one_notification_per_call c s r s' :
  rep_inv max_size s →
  perform max_size c s = Ret (r, s') →
  notified s' = notified s ++ signals_of c r.
Proof. apply perform_notified. Qed.

(** ** A monitor of capacity 0 *)

Lemma enqueue_blocks item s :
  capacity s ≤ count s → enqueue max_size item s = Block.
Proof.
  intros Hfull. unfold enqueue. monitor_simpl.
  by rewrite (proj2 (Z.ltb_ge _ _)) by done.
Qed.

Lemma zero_capacity_run cs : ∀ s rs s',
  capacity s = 0 → count s = 0 →
  run max_size cs s = Ret (rs, s') →
  enqueued cs = [] ∧ delivered rs = [] ∧ buffer s' = buffer s.
Proof.
  induction cs as [|c cs IH]; intros s rs s' Hcap Hcount.
  - by intros [= <- <-].
  - rewrite run_cons. destruct c as [item| |].
    + by rewrite perform_enqueue, enqueue_blocks by lia.
    + rewrite perform_dequeue.
      destruct (producers_done s) eqn:Hd.
      * rewrite dequeue_end_of_stream by done.
        destruct (run max_size cs s) as [[rs1 s2]| |e] eqn:Hr; [|done..].
        intros [= <- <-]. by apply (IH _ _ _ Hcap Hcount) in Hr.
      * by rewrite dequeue_blocks.
    + rewrite perform_set_producers_done.
      destruct (run max_size cs _) as [[rs1 s2]| |e] eqn:Hr; [|done..].
      intros [= <- <-]. by apply IH in Hr.
Qed.

(** X5. A monitor built with capacity 0 never takes an item: the
    constructor succeeds, every [enqueue] suspends (no resize comes to
    its help), so a sequence of calls that completes holds no [enqueue]
    and its dequeues hand out nothing. *)
Theorem zero_capacity_never_accepts log :
  0 ≤ max_size →
  ∃ s0, construct max_size 0 log = Ret s0
        ∧ (∀ item, enqueue max_size item s0 = Block)
        ∧ ∀ cs rs s', run max_size cs s0 = Ret (rs, s') →
                      enqueued cs = [] ∧ delivered rs = [].
Proof.
  intros Hmax. rewrite construct_eq, decide_True by done.
  eexists. split; [done|]. split.
  - intros item. by apply enqueue_blocks.
  - intros cs rs s' Hrun.
    apply zero_capacity_run in Hrun as (? & ? & _); done.
Qed.

(** ** Unused space *)

Lemma perform_slack bound c s r s' :
  rep_inv max_size s →
  capacity s ≤ bound ∨ capacity s < 4 * (count s + 1) →
  perform max_size c s = Ret (r, s') →
  capacity s' ≤ bound ∨ capacity s' < 4 * (count s' + 1).
Proof.
  intros Hinv Hslack. pose proof Hinv as []. destruct c as [item| |].
  - rewrite perform_enqueue.
    destruct (enqueue max_size item s) as [[[] s1]| |e] eqn:Hret; [|done..].
    intros [= <- <-].
    destruct (enqueue_ret max_size max_size_bound _ _ _ Hinv Hret)
      as [Hlt [(Hfull & Hmax & ->)|(Hfull & ->)]]; cbn; lia.
  - rewrite perform_dequeue.
    destruct (dequeue max_size s) as [[r1 s1]| |e] eqn:Hret; [|done..].
    intros [= <- <-].
    destruct (dequeue_ret max_size max_size_bound _ _ _ Hinv Hret)
      as [(Hc & _ & _ & ->)|(Hpos & _ & [(Hcap & Hq & ->)|(Hno & ->)])];
      cbn; [done| |].
    + pose proof (half_bounds _ Hcap).
      pose proof (Z.div_mod (capacity s) 2 ltac:(lia)).
      pose proof (Z.mod_pos_bound (capacity s) 2 ltac:(lia)). lia.
    + pose proof (Z.div_mod (capacity s) 4 ltac:(lia)).
      pose proof (Z.mod_pos_bound (capacity s) 4 ltac:(lia)). lia.
  - rewrite perform_set_producers_done. by intros [= <- <-].
Qed.

Lemma run_slack bound cs : ∀ s rs s',
  rep_inv max_size s →
  capacity s ≤ bound ∨ capacity s < 4 * (count s + 1) →
  run max_size cs s = Ret (rs, s') →
  capacity s' ≤ bound ∨ capacity s' < 4 * (count s' + 1).
Proof.
  induction cs as [|c cs IH]; intros s rs s' Hinv Hslack.
  - by intros [= <- <-].
  - rewrite run_cons.
    destruct (perform max_size c s) as [[r s1]| |e] eqn:Hp; [|done..].
    destruct (run max_size cs s1) as [[rs1 s2]| |e] eqn:Hr; [|done..].
    intros [= <- <-].
    eapply IH; [|by eapply perform_slack|done].
    by eapply (perform_rep_inv max_size max_size_bound).
Qed.

(** X6. The buffer is never much larger than its content: after any
    completed sequence of calls, from a state that satisfies the
    invariant, the capacity is at most the capacity at the start or below
    [4 * (count + 1)]. *)
Theorem capacity_slack_bounded cs s rs s' :
  rep_inv max_size s →
  run max_size cs s = Ret (rs, s') →
  capacity s' ≤ capacity s ∨ capacity s' < 4 * (count s' + 1).
Proof.
  intros Hinv Hrun. eapply run_slack; [done| |done]. by left.
Qed.

(** ** A producer on its own *)

Lemma produce_appends (n : nat) : ∀ i s,
  rep_inv max_size s → count s < capacity s →
  2 * (count s + Z.of_nat n) ≤ max_size →
  ∃ s', produce max_size n i s = Ret (tt, s')
        ∧ rep_inv max_size s'
        ∧ count s' < capacity s'
        ∧ contents s' = contents s ++ seqZ i (Z.of_nat n)
        ∧ count s' = count s + Z.of_nat n
        ∧ producers_done s' = producers_done s.
Proof.
  induction n as [|n IH]; intros i s Hinv Hlt Hmax.
  - exists s. cbn. rewrite app_nil_r. split_and!; done || lia.
  - destruct (enqueue_some max_size max_size_bound i s Hinv Hlt)
      as (s1 & Hret & Hcont & Hcount & Hdone & _); [lia|].
    destruct (enqueue_rep_inv max_size max_size_bound _ _ _ Hinv Hret)
      as [Hinv1 Hlt1].
    destruct (IH (i + 1) s1 Hinv1 Hlt1)
      as (s' & Hrun & Hinv' & Hlt' & Hcont' & Hcount' & Hdone'); [lia|].
    exists s'. cbn [produce]. unfold mbind, monitor_bind. rewrite Hret, Hrun.
    split_and!; try done; try lia; [|congruence].
    rewrite Hcont', Hcont, <- app_assoc. cbn [app]. f_equal.
    rewrite (seqZ_cons i) by lia. f_equal. f_equal; lia.
Qed.

(** X7. A producer that runs without interference, from a state between
    calls and within what the allocator grants, never suspends: it
    completes and leaves the numbers [0, 1, ..., items_to_produce - 1]
    behind the content that was there, in this order.  With
    [items_to_produce <= 0] it does nothing. *)
Theorem producer_function_appends producer_id items_to_produce s :
  rep_inv max_size s → count s < capacity s →
  2 * (count s + Z.max 0 items_to_produce) ≤ max_size →
  ∃ s', producer_function max_size producer_id items_to_produce s = Ret (tt, s')
        ∧ contents s' = contents s ++ seqZ 0 items_to_produce
        ∧ count s' = count s + Z.max 0 items_to_produce
        ∧ count s' < capacity s'.
Proof.
  intros Hinv Hlt Hmax. unfold producer_function.
  destruct (produce_appends (Z.to_nat items_to_produce) 0 s Hinv Hlt)
    as (s' & Hrun & _ & Hlt' & Hcont & Hcount & _); [lia|].
  exists s'. split; [done|].
  destruct (decide (0 ≤ items_to_produce)) as [Hn|Hn].
  - rewrite Z2Nat.id in Hcont, Hcount by done. split_and!; done || lia.
  - replace (Z.to_nat items_to_produce) with 0%nat in Hcont, Hcount by lia.
    rewrite (seqZ_nil 0 items_to_produce) by lia.
    cbn in Hcont. split_and!; done || lia.
Qed.

(** ** A consumer on its own *)







(** ** Faults *)




End Threads.

(** * Properties of the command line *)

Section CommandLineProperties.

Import CommandLine.

Variable atoi : string → Z.

Lemma parse_pair f v rest o :
  parse atoi (flag_text f :: v :: rest) o = parse atoi rest (assign atoi f v o).
Proof. by destruct f. Qed.

Lemma parse_not_flag a v rest o :
  (∀ f, a ≠ flag_text f) → parse atoi (a :: v :: rest) o = inr (unknown_parameter a).
Proof.
  intros Hno. cbn [parse].
  rewrite (proj2 (String.eqb_neq a "-p")) by apply (Hno flag_p).
  rewrite (proj2 (String.eqb_neq a "-c")) by apply (Hno flag_c).
  rewrite (proj2 (String.eqb_neq a "-s")) by apply (Hno flag_s).
  by rewrite (proj2 (String.eqb_neq a "-t")) by apply (Hno flag_t).
Qed.

Lemma parse_pairs pairs : ∀ rest o,
  parse atoi (concat (render <$> pairs) ++ rest) o
  = parse atoi rest (foldl (λ o' fv, assign atoi fv.1 fv.2 o') o pairs).
Proof.
  induction pairs as [|[f v] pairs IH]; intros rest o; [done|].
  cbn [fmap list_fmap concat render fst snd app foldl].
  by rewrite parse_pair, IH.
Qed.

(** X9. Options are read left to right: a command line made of options
    of the program, each followed by an argument, is accepted whatever
    the arguments are, and each option assigns in turn, so that of two
    occurrences of an option the later one counts. *)
Theorem parse_accepts_pairs pairs o :
  parse atoi (concat (render <$> pairs)) o
  = inl (foldl (λ o' fv, assign atoi fv.1 fv.2 o') o pairs).
Proof.
  rewrite <- (app_nil_r (concat _)). by rewrite parse_pairs.
Qed.

(** X10. After any number of well-formed options, an argument that is
    none of [-p], [-c], [-s], [-t], or any last argument in option
    position (an option without its value included), ends the program
    with status 1 and the text [Parámetro desconocido: <argument>]. *)
Theorem parse_rejects pairs a rest o :
  (∀ f, a ≠ flag_text f) ∨ rest = [] →
  parse atoi (concat (render <$> pairs) ++ a :: rest) o
  = inr (String.append "Parámetro desconocido: " (String.append a endl)).
Proof.
  intros Hbad. rewrite parse_pairs.
  destruct rest as [|v rest]; [done|].
  destruct Hbad as [Hno|?]; [|done]. by apply parse_not_flag.
Qed.

(** X11. A negative value for [-s] wraps to a size above every
    [max_size]: when the last option is [-s] with a negative [int], the
    constructor of the monitor throws [std::length_error]. *)
Theorem negative_size_is_fatal max_size pairs v :
  max_size < 2 ^ 63 →
  - 2 ^ 31 ≤ atoi v < 0 →
  main_setup max_size atoi true (concat (render <$> pairs) ++ ["-s"%string; v])
  = inl (Abort length_error).
Proof.
  intros Hmax Hv. unfold main_setup.
  rewrite parse_pairs, (parse_pair flag_s). cbn [parse assign initial_queue_size].
  rewrite construct_eq. rewrite decide_False; [done|].
  unfold size_wrap.
  rewrite <- (Z.mod_add _ 1) by lia.
  rewrite Z.mod_small by lia. lia.
Qed.

End CommandLineProperties.

(** ** The further properties at work *)

Lemma closing_monitor_rep_inv : rep_inv libstdcxx_max_size closing_monitor.
Proof. split; cbn; first [reflexivity | by vm_compute]. Qed.

Lemma resize_relinearizes_witness :
  libstdcxx_max_size < 2 ^ 63 ∧
  rep_inv libstdcxx_max_size wrapped_monitor ∧
  1 ≤ 5 ∧ count wrapped_monitor ≤ 5 ∧ 5 ≤ libstdcxx_max_size ∧
  ∃ s', resize libstdcxx_max_size 5 wrapped_monitor = Ret (tt, s')
        ∧ front s' = 0 ∧ capacity s' = 5 ∧ count s' = count wrapped_monitor
        ∧ buffer s'
          = contents wrapped_monitor
            ++ replicate (Z.to_nat (5 - count wrapped_monitor)) 0
        ∧ contents s' = contents wrapped_monitor.
Proof.
  split; [reflexivity|]. split; [exact wrapped_monitor_rep_inv|].
  split; [by vm_compute|]. split; [by vm_compute|]. split; [by vm_compute|].
  apply (resize_relinearizes libstdcxx_max_size eq_refl 5 wrapped_monitor);
    [exact wrapped_monitor_rep_inv|by vm_compute..].
Defined.

Lemma producers_done_after_run_witness :
  let cs := [Enqueue 4; SetProducersDone; Dequeue; Dequeue] in
  let s' := Monitor [0] 1 0 0 0 true
              (String.append (resize_line 2) (resize_line 1))
              [notify_one not_empty; notify_all not_empty; notify_one not_full] in
  run libstdcxx_max_size cs (Monitor [0] 1 0 0 0 false "" [])
  = Ret ([Some 4; None], s') ∧
  producers_done s' = false || existsb is_set_producers_done cs.
Proof.
  intros cs s'.
  assert (run libstdcxx_max_size cs (Monitor [0] 1 0 0 0 false "" [])
          = Ret ([Some 4; None], s')) as Hrun by (by vm_compute).
  split; [exact Hrun|].
  exact (producers_done_after_run libstdcxx_max_size cs _ _ _ Hrun).
Defined.

Lemma drain_after_producers_done_witness :
  libstdcxx_max_size < 2 ^ 63 ∧
  rep_inv libstdcxx_max_size closing_monitor ∧
  producers_done closing_monitor = true ∧
  ∃ s', run libstdcxx_max_size
          (replicate (length (contents closing_monitor) + 2) Dequeue)
          closing_monitor
        = Ret ((Some <$> contents closing_monitor) ++ replicate 2 None, s')
        ∧ count s' = 0 ∧ producers_done s' = true.
Proof.
  split; [reflexivity|]. split; [exact closing_monitor_rep_inv|].
  split; [reflexivity|].
  apply (drain_after_producers_done libstdcxx_max_size eq_refl closing_monitor 2);
    [exact closing_monitor_rep_inv|reflexivity].
Defined.

Lemma one_notification_per_call_witness :
  let s' := Monitor [12; 13; 0; 0] 4 0 2 2 false (resize_line 4)
              [notify_one not_full] in
  libstdcxx_max_size < 2 ^ 63 ∧
  rep_inv libstdcxx_max_size wrapped_monitor ∧
  perform libstdcxx_max_size Dequeue wrapped_monitor = Ret ([Some 11], s') ∧
  notified s' = notified wrapped_monitor ++ signals_of Dequeue [Some 11].
Proof.
  intros s'.
  assert (perform libstdcxx_max_size Dequeue wrapped_monitor
          = Ret ([Some 11], s')) as Hp by (by vm_compute).
  split; [reflexivity|]. split; [exact wrapped_monitor_rep_inv|].
  split; [exact Hp|].
  exact (one_notification_per_call libstdcxx_max_size eq_refl _ _ _ _
           wrapped_monitor_rep_inv Hp).
Defined.

Lemma zero_capacity_never_accepts_witness :
  0 ≤ libstdcxx_max_size ∧
  ∃ s0, construct libstdcxx_max_size 0 "" = Ret s0
        ∧ (∀ item, enqueue libstdcxx_max_size item s0 = Block)
        ∧ ∀ cs rs s', run libstdcxx_max_size cs s0 = Ret (rs, s') →
                      enqueued cs = [] ∧ delivered rs = [].
Proof.
  split; [by vm_compute|].
  apply (zero_capacity_never_accepts libstdcxx_max_size ""). by vm_compute.
Defined.

Lemma capacity_slack_bounded_witness :
  let cs := [Enqueue 1; Enqueue 2; Enqueue 3; Enqueue 4; Enqueue 5; Dequeue] in
  let s' := Monitor [1; 2; 3; 4; 5; 0; 0; 0] 8 1 5 4 false
              (String.append (resize_line 2)
                 (String.append (resize_line 4) (resize_line 8)))
              [notify_one not_empty; notify_one not_empty; notify_one not_empty;
               notify_one not_empty; notify_one not_empty; notify_one not_full] in
  libstdcxx_max_size < 2 ^ 63 ∧
  rep_inv libstdcxx_max_size (Monitor [0] 1 0 0 0 false "" []) ∧
  run libstdcxx_max_size cs (Monitor [0] 1 0 0 0 false "" [])
  = Ret ([Some 1], s') ∧
  (capacity s' ≤ capacity (Monitor [0] 1 0 0 0 false "" [])
   ∨ capacity s' < 4 * (count s' + 1)).
Proof.
  intros cs s'.
  assert (rep_inv libstdcxx_max_size (Monitor [0] 1 0 0 0 false "" []))
    as Hinv by (split; cbn; first [reflexivity | by vm_compute]).
  assert (run libstdcxx_max_size cs (Monitor [0] 1 0 0 0 false "" [])
          = Ret ([Some 1], s')) as Hrun by (by vm_compute).
  split; [reflexivity|]. split; [exact Hinv|]. split; [exact Hrun|].
  exact (capacity_slack_bounded libstdcxx_max_size eq_refl cs _ _ _ Hinv Hrun).
Defined.

Lemma producer_function_appends_witness :
  libstdcxx_max_size < 2 ^ 63 ∧
  rep_inv libstdcxx_max_size wrapped_monitor ∧
  count wrapped_monitor < capacity wrapped_monitor ∧
  2 * (count wrapped_monitor + Z.max 0 100) ≤ libstdcxx_max_size ∧
  ∃ s', producer_function libstdcxx_max_size 0 100 wrapped_monitor = Ret (tt, s')
        ∧ contents s' = contents wrapped_monitor ++ seqZ 0 100
        ∧ count s' = count wrapped_monitor + Z.max 0 100
        ∧ count s' < capacity s'.
Proof.
  split; [reflexivity|]. split; [exact wrapped_monitor_rep_inv|].
  split; [reflexivity|]. split; [by vm_compute|].
  apply (producer_function_appends libstdcxx_max_size eq_refl 0 100 wrapped_monitor);
    [exact wrapped_monitor_rep_inv|reflexivity|by vm_compute].
Defined.


Lemma parse_rejects_witness :
  ((∀ f, "-x"%string ≠ CommandLine.flag_text f) ∨ @nil string = []) ∧
  CommandLine.parse atoi_numeral
    (concat (CommandLine.render <$> [(CommandLine.flag_p, "3"%string)])
     ++ ["-x"%string])
    CommandLine.defaults
  = inr (String.append "Parámetro desconocido: " (String.append "-x" endl)).
Proof.
  assert ((∀ f, "-x"%string ≠ CommandLine.flag_text f) ∨ @nil string = [])
    as Hbad by (by right).
  split; [exact Hbad|].
  exact (parse_rejects atoi_numeral [(CommandLine.flag_p, "3"%string)] "-x" []
           CommandLine.defaults Hbad).
Defined.

Lemma negative_size_is_fatal_witness :
  libstdcxx_max_size < 2 ^ 63 ∧
  - 2 ^ 31 ≤ atoi_numeral "-1" < 0 ∧
  main_setup libstdcxx_max_size atoi_numeral true
    (concat (CommandLine.render <$> [(CommandLine.flag_c, "2"%string)])
     ++ ["-s"%string; "-1"%string])
  = inl (Abort length_error).
Proof.
  split; [reflexivity|]. split; [by vm_compute|].
  apply (negative_size_is_fatal atoi_numeral libstdcxx_max_size
           [(CommandLine.flag_c, "2"%string)] "-1"); by vm_compute.
Defined.


(** * Properties of the page replacement simulator *)

Section PageTableProperties.

Import Paging.

Lemma hash_in_range t page :
  table_wf t → 0 ≤ page →
  hashFunction t page = Ret (page mod table_size t)
  ∧ 0 ≤ page mod table_size t < table_size t
  ∧ size_wrap (page mod table_size t) = page mod table_size t.
Proof.
  intros [[Hpos Hmax] Hlen] Hpage. unfold hashFunction, int_rem, INT_MIN, INT_MAX in *.
  rewrite decide_False by lia. rewrite Z.rem_mod_nonneg by lia.
  pose proof (Z.mod_pos_bound page (table_size t) Hpos).
  split_and!; try done; try lia.
  apply size_wrap_small. lia.
Qed.

Lemma chain_at t page :
  table_wf t → 0 ≤ page →
  ∃ chain, table t !! Z.to_nat (page mod table_size t) = Some chain
           ∧ at_index (table t) (page mod table_size t) = Ret chain.
Proof.
  intros Hwf Hpage. pose proof Hwf as [[Hpos Hmax] Hlen].
  destruct (hash_in_range t page Hwf Hpage) as (_ & Hrange & Hwrap).
  destruct (lookup_lt_is_Some_2 (table t) (Z.to_nat (page mod table_size t)))
    as [chain Hchain]; [lia|].
  exists chain. split; [done|].
  unfold at_index. rewrite Hwrap, decide_True by lia. by rewrite Hchain.
Qed.

Lemma holds_revalidate page chain marked :
  revalidate page chain = Some marked → holds page marked = true.
Proof.
  unfold holds. revert marked.
  induction chain as [|entry rest IH]; intros marked; [done|].
  cbn [revalidate]. case_decide as Heq.
  - intros [= <-]. cbn [existsb page_number valid]. by rewrite bool_decide_true.
  - destruct (revalidate page rest) as [m|]; [|done]. intros [= <-].
    cbn [existsb]. rewrite (IH m eq_refl). by rewrite orb_true_r.
Qed.

Lemma holds_revalidate_other page other chain marked :
  other ≠ page →
  revalidate page chain = Some marked → holds other marked = holds other chain.
Proof.
  intros Hne. unfold holds. revert marked.
  induction chain as [|entry rest IH]; intros marked; [done|].
  cbn [revalidate]. case_decide as Heq.
  - intros [= <-]. cbn [existsb page_number valid].
    by rewrite !bool_decide_false by congruence.
  - destruct (revalidate page rest) as [m|]; [|done]. intros [= <-].
    cbn [existsb]. by rewrite (IH m eq_refl).
Qed.

Lemma holds_app page chain chain' :
  holds page (chain ++ chain') = holds page chain || holds page chain'.
Proof. apply existsb_app. Qed.

Lemma holds_filter_same page chain :
  holds page (filter (λ entry, page_number entry ≠ page) chain) = false.
Proof.
  unfold holds. induction chain as [|entry rest IH]; [done|].
  rewrite filter_cons. case_decide as Hne; [|done].
  cbn [existsb]. by rewrite bool_decide_false, IH.
Qed.

Lemma holds_filter_other page other chain :
  other ≠ page →
  holds other (filter (λ entry, page_number entry ≠ page) chain)
  = holds other chain.
Proof.
  intros Hne. unfold holds. induction chain as [|entry rest IH]; [done|].
  rewrite filter_cons. case_decide as Hkeep.
  - cbn [existsb]. by rewrite <- IH.
  - cbn [existsb]. rewrite bool_decide_false; [done|]. congruence.
Qed.

(** What a lookup gives after a chain has been replaced. *)
Lemma isValid_after_update t page chain' other :
  table_wf t → 0 ≤ page → 0 ≤ other →
  let t' := Table (table_size t)
              (<[Z.to_nat (page mod table_size t) := chain']> (table t)) in
  table_wf t'
  ∧ isValid other t'
    = if decide (other mod table_size t = page mod table_size t)
      then Ret (holds other chain')
      else isValid other t.
Proof.
  intros Hwf Hpage Hother t'. pose proof Hwf as [[Hpos Hmax] Hlen].
  assert (table_wf t') as Hwf'.
  { split; [done|]. cbn. by rewrite length_insert. }
  split; [done|].
  destruct (hash_in_range t page Hwf Hpage) as (_ & Hrange & _).
  destruct (hash_in_range t other Hwf Hother) as (Hhash & Hrange' & Hwrap').
  destruct (hash_in_range t' other Hwf' Hother) as (Hhash' & _ & _).
  destruct (chain_at t other Hwf Hother) as (chain & Hchain & Hat).
  destruct (chain_at t' other Hwf' Hother) as (chain1 & Hchain1 & Hat1).
  unfold isValid. rewrite Hhash, Hhash'. cbn [outcome_bind].
  rewrite Hat1. unfold t' in Hchain1 |- *. cbn [table table_size] in Hchain1 |- *.
  rewrite Hat. cbn [outcome_bind].
  case_decide as Heq.
  - rewrite Heq, list_lookup_insert_eq in Hchain1 by lia. by injection Hchain1 as <-.
  - rewrite list_lookup_insert_ne in Hchain1 by lia. congruence.
Qed.

(** X13. [insert] then [isValid]: in a table of [table_size > 0] chains
    and for page numbers that are not negative, [insert] completes, the
    page is valid afterwards, and the answer of [isValid] for every other
    page is what it was. *)
Theorem insert_isValid t page :
  table_wf t → 0 ≤ page →
  ∃ t', insert page t = Ret t'
        ∧ table_wf t'
        ∧ isValid page t' = Ret true
        ∧ ∀ other, 0 ≤ other → other ≠ page → isValid other t' = isValid other t.
Proof.
  intros Hwf Hpage.
  destruct (hash_in_range t page Hwf Hpage) as (Hhash & Hrange & Hwrap).
  destruct (chain_at t page Hwf Hpage) as (chain & Hchain & Hat).
  unfold insert. rewrite Hhash. cbn [outcome_bind]. rewrite Hat, Hwrap.
  cbn [outcome_bind]. eexists. split; [done|].
  set (chain' := match revalidate page chain with Some m => m | None => _ end).
  pose proof (isValid_after_update t page chain') as Hupd. cbn zeta in Hupd.
  split; [by apply (Hupd page)|]. split.
  - destruct (Hupd page Hwf Hpage Hpage) as [_ ->]. rewrite decide_True by done.
    f_equal. unfold chain'. destruct (revalidate page chain) as [m|] eqn:Hm.
    + by eapply holds_revalidate.
    + rewrite holds_app. unfold holds at 2. cbn [existsb page_number valid].
      rewrite bool_decide_true by done. apply orb_true_r.
  - intros other Hother Hne.
    destruct (Hupd other Hwf Hpage Hother) as [_ ->].
    case_decide as Heq; [|done].
    destruct (hash_in_range t other Hwf Hother) as (Hhash' & _ & _).
    destruct (chain_at t other Hwf Hother) as (chain1 & Hchain1 & Hat1).
    unfold isValid. rewrite Hhash'. cbn [outcome_bind]. rewrite Hat1.
    cbn [outcome_bind]. f_equal. rewrite Heq, Hchain in Hchain1.
    injection Hchain1 as <-. unfold chain'.
    destruct (revalidate page chain) as [m|] eqn:Hm.
    + by eapply holds_revalidate_other.
    + rewrite holds_app. unfold holds at 2. cbn [existsb page_number valid].
      rewrite bool_decide_false by congruence. cbn. by rewrite orb_false_r.
Qed.

(** X14. [remove] then [isValid]: under the same conditions [remove]
    completes, the page is not valid afterwards, and the answer of
    [isValid] for every other page is what it was. *)
Theorem remove_isValid t page :
  table_wf t → 0 ≤ page →
  ∃ t', remove page t = Ret t'
        ∧ table_wf t'
        ∧ isValid page t' = Ret false
        ∧ ∀ other, 0 ≤ other → other ≠ page → isValid other t' = isValid other t.
Proof.
  intros Hwf Hpage.
  destruct (hash_in_range t page Hwf Hpage) as (Hhash & Hrange & Hwrap).
  destruct (chain_at t page Hwf Hpage) as (chain & Hchain & Hat).
  unfold remove. rewrite Hhash. cbn [outcome_bind]. rewrite Hat, Hwrap.
  cbn [outcome_bind]. eexists. split; [done|].
  set (chain' := filter _ chain).
  pose proof (isValid_after_update t page chain') as Hupd. cbn zeta in Hupd.
  split; [by apply (Hupd page)|]. split.
  - destruct (Hupd page Hwf Hpage Hpage) as [_ ->]. rewrite decide_True by done.
    f_equal. apply holds_filter_same.
  - intros other Hother Hne.
    destruct (Hupd other Hwf Hpage Hother) as [_ ->].
    case_decide as Heq; [|done].
    destruct (hash_in_range t other Hwf Hother) as (Hhash' & _ & _).
    destruct (chain_at t other Hwf Hother) as (chain1 & Hchain1 & Hat1).
    unfold isValid. rewrite Hhash'. cbn [outcome_bind]. rewrite Hat1.
    cbn [outcome_bind]. f_equal. rewrite Heq, Hchain in Hchain1.
    injection Hchain1 as <-. by apply holds_filter_other.
Qed.

(** X15. A negative page number that is not a multiple of [table_size]
    hashes to a negative index: [insert], [remove] and [isValid] then
    reach outside the vector of chains. *)
Theorem negative_page_is_undefined t page :
  table_wf t → INT_MIN ≤ page < 0 → page mod table_size t ≠ 0 →
  insert page t = Abort undefined_behavior
  ∧ remove page t = Abort undefined_behavior
  ∧ isValid page t = Abort undefined_behavior.
Proof.
  intros [[Hpos Hmax] Hlen] Hneg Hrem. unfold INT_MIN, INT_MAX in *.
  assert (hashFunction t page = Ret (Z.rem page (table_size t))) as Hhash.
  { unfold hashFunction, int_rem, INT_MIN. by rewrite decide_False by lia. }
  assert (- table_size t < Z.rem page (table_size t) < 0) as Hrange.
  { pose proof (Z.rem_nonpos page (table_size t) ltac:(lia) ltac:(lia)).
    pose proof (Z.rem_bound_abs page (table_size t) ltac:(lia)).
    assert (Z.rem page (table_size t) ≠ 0); [|lia].
    intros Hzero. apply Hrem. apply Z.rem_divide in Hzero; [|lia].
    apply Z.mod_divide; [lia|done]. }
  assert (at_index (table t) (Z.rem page (table_size t))
          = Abort undefined_behavior) as Hat.
  { unfold at_index. rewrite decide_False; [done|].
    unfold size_wrap.
    rewrite <- (Z.mod_add _ 1) by lia. rewrite Z.mod_small by lia. lia. }
  unfold insert, remove, isValid. rewrite Hhash. cbn [outcome_bind].
  by rewrite Hat.
Qed.

(** X16. A fresh table holds no page: for [0 < size] within what the
    vector grants, the constructor completes with [size] empty chains and
    [isValid] answers [false] for every page number that is not
    negative. *)
Theorem fresh_table_is_empty max_size size page :
  0 < size ≤ INT_MAX → size ≤ max_size → 0 ≤ page →
  ∃ t, construct max_size size = Ret t
       ∧ table_wf t
       ∧ isValid page t = Ret false.
Proof.
  intros Hsize Hmax Hpage. unfold construct, INT_MAX in *.
  rewrite size_wrap_small by lia. rewrite decide_True by done.
  eexists. split; [done|].
  set (t := Table size _).
  assert (table_wf t) as Hwf.
  { split; [done|]. cbn. rewrite length_replicate. lia. }
  split; [done|].
  destruct (hash_in_range t page Hwf Hpage) as (Hhash & Hrange & _).
  destruct (chain_at t page Hwf Hpage) as (chain & Hchain & Hat).
  unfold isValid. rewrite Hhash. cbn [outcome_bind]. rewrite Hat.
  cbn [outcome_bind]. cbn [table t] in Hchain.
  apply lookup_replicate in Hchain as [-> _]. done.
Qed.

End PageTableProperties.

Section SimulatorProperties.

Import Paging.

(** ** Counting different pages *)

Lemma distinct_cons_in x l : x ∈ l → distinct (x :: l) = distinct l.
Proof. intros Hx. unfold distinct. cbn [remove_dups]. by destruct (decide_rel _ x l). Qed.

Lemma distinct_cons_notin x l : x ∉ l → distinct (x :: l) = S (distinct l).
Proof. intros Hx. unfold distinct. cbn [remove_dups]. by destruct (decide_rel _ x l). Qed.

Lemma distinct_mono l k : (∀ x, x ∈ l → x ∈ k) → (distinct l ≤ distinct k)%nat.
Proof.
  intros Hsub. unfold distinct. apply submseteq_length, NoDup_submseteq.
  - apply NoDup_remove_dups.
  - intros x. rewrite !elem_of_remove_dups. apply Hsub.
Qed.

Lemma distinct_ext l k : (∀ x, x ∈ l ↔ x ∈ k) → distinct l = distinct k.
Proof.
  intros Heq. apply Nat.le_antisymm; apply distinct_mono; intros x; apply Heq.
Qed.

Lemma distinct_le_length l : (distinct l ≤ length l)%nat.
Proof.
  induction l as [|x l IH]; [done|].
  destruct (decide (x ∈ l)).
  - rewrite distinct_cons_in by done. cbn. lia.
  - rewrite distinct_cons_notin by done. cbn. lia.
Qed.

Lemma distinct_reverse l : distinct (reverse l) = distinct l.
Proof. apply distinct_ext. intros x. apply elem_of_reverse. Qed.

Lemma NoDup_length_distinct l seen :
  NoDup l → (∀ x, x ∈ l ↔ x ∈ seen) → length l = distinct seen.
Proof.
  intros Hnd Heq. unfold distinct. apply Permutation_length, NoDup_Permutation.
  - done.
  - apply NoDup_remove_dups.
  - intros x. by rewrite elem_of_remove_dups.
Qed.

(** ** The loop over the references *)

Lemma for_each_invariant {S : Type} (step : S → Z → outcome S)
    (inv : list Z → S → Prop) (fits : list Z → Prop) :
  (∀ l l', fits (l' ++ l) → fits l) →
  (∀ seen st page,
     inv seen st → fits (page :: seen) →
     ∃ st', step st page = Ret st' ∧ inv (page :: seen) st') →
  ∀ references seen st,
    inv seen st → fits (reverse references ++ seen) →
    ∃ st', for_each step references st = Ret st'
           ∧ inv (reverse references ++ seen) st'.
Proof.
  intros Hfits Hstep references.
  induction references as [|page rest IH]; intros seen st Hinv Hfit.
  - by exists st.
  - rewrite reverse_cons, <- app_assoc in *. cbn [app] in *.
    destruct (Hstep seen st page Hinv) as (st1 & Hret & Hinv1).
    { by apply (Hfits _ (reverse rest)). }
    destruct (IH _ _ Hinv1 Hfit) as (st' & Hrun & Hinv').
    exists st'. cbn [for_each]. by rewrite Hret.
Qed.

(** ** Pages in memory *)

Lemma elem_of_set_insert x y l : x ∈ set_insert y l ↔ x = y ∨ x ∈ l.
Proof.
  unfold set_insert. case_decide; [|by rewrite elem_of_cons].
  split; [auto|]. by intros [->|?].
Qed.

Lemma elem_of_set_erase x y l : x ∈ set_erase y l ↔ x ≠ y ∧ x ∈ l.
Proof. unfold set_erase. by rewrite list_elem_of_filter. Qed.

Lemma resident_hit seen frames pages page :
  resident seen frames pages → page ∈ pages →
  resident (page :: seen) frames pages.
Proof.
  intros [] Hin. split; [done..|]. intros x Hx. right. auto.
Qed.

Lemma resident_push_back seen frames pages page :
  resident seen frames pages → page ∉ pages →
  resident (page :: seen) (frames ++ [page]) (set_insert page pages).
Proof.
  intros [Hp Hnd Hs] Hnew. split.
  - intros x. rewrite elem_of_set_insert, elem_of_app, list_elem_of_singleton, Hp.
    tauto.
  - apply NoDup_app. split_and!; [done| |apply NoDup_singleton].
    intros x Hx ->%list_elem_of_singleton. by apply Hnew, Hp.
  - intros x [?| ->%list_elem_of_singleton]%elem_of_app; [right; auto|left].
Qed.

Lemma resident_fifo_evict seen victim rest pages page :
  resident seen (victim :: rest) pages → page ∉ pages →
  resident (page :: seen) (rest ++ [page])
    (set_insert page (set_erase victim pages)).
Proof.
  intros [Hp Hnd Hs] Hnew. apply NoDup_cons in Hnd as [Hvictim Hnd]. split.
  - intros x.
    rewrite elem_of_set_insert, elem_of_set_erase, elem_of_app,
      list_elem_of_singleton, Hp, elem_of_cons.
    split; [|intros [?| ->]; [right; split; [congruence|auto]|auto]].
    intros [->|[? [->|?]]]; auto. done.
  - apply NoDup_app. split_and!; [done| |apply NoDup_singleton].
    intros x Hx ->%list_elem_of_singleton. apply Hnew, Hp. by right.
  - intros x [?| ->%list_elem_of_singleton]%elem_of_app; [right|left].
    apply Hs. by right.
Qed.

(** ** simulateFIFO *)

Lemma int_incr_ok n : n < INT_MAX → int_incr n = Ret (n + 1).
Proof. intros Hn. unfold int_incr. by rewrite decide_True. Qed.

Lemma fifo_step_bounds num_frames seen st page :
  0 < size_wrap num_frames →
  fifo_bounds seen st →
  Z.of_nat (length (page :: seen)) ≤ INT_MAX →
  ∃ st', fifo_step num_frames st page = Ret st' ∧ fifo_bounds (page :: seen) st'.
Proof.
  intros Hframes [Hres [Hlow Hhigh]] Hfit. cbn [length] in Hfit.
  unfold fifo_step. case_decide as Hin.
  - exists st. split; [done|]. split; [by apply resident_hit|].
    rewrite distinct_cons_in by (by apply Hres, Hres). cbn [length]. lia.
  - assert (page ∉ seen ∨ page ∈ seen) as Hseen by (destruct (decide (page ∈ seen)); auto).
    assert (Z.of_nat (distinct (page :: seen)) ≤ fifo_faults st + 1
            ≤ Z.of_nat (length (page :: seen))) as Hcount.
    { cbn [length]. destruct Hseen.
      - rewrite distinct_cons_notin by done. lia.
      - rewrite distinct_cons_in by done. lia. }
    rewrite int_incr_ok by lia.
    case_decide as Hroom; cbn [outcome_bind fst snd].
    + eexists. split; [done|]. split; [|done]. by apply resident_push_back.
    + destruct (fifo_frames st) as [|victim rest] eqn:Hfr; [cbn in Hroom; lia|].
      cbn [outcome_bind fst snd]. eexists. split; [done|]. split; [|done].
      by apply resident_fifo_evict.
Qed.

Lemma fifo_step_exact num_frames seen st page :
  fifo_exact seen st →
  Z.of_nat (length (page :: seen)) ≤ INT_MAX
  ∧ Z.of_nat (distinct (page :: seen)) ≤ size_wrap num_frames →
  ∃ st', fifo_step num_frames st page = Ret st' ∧ fifo_exact (page :: seen) st'.
Proof.
  intros (Hres & Hall & Hfaults) [Hfit Hroom]. cbn [length] in Hfit.
  pose proof (distinct_le_length seen).
  unfold fifo_step. case_decide as Hin.
  - exists st. split; [done|]. split; [by apply resident_hit|]. split.
    + intros x [->|?]%elem_of_cons; [by apply Hres|auto].
    + by rewrite distinct_cons_in by (by apply Hres, Hres).
  - assert (page ∉ seen) as Hnew by (intros ?; by apply Hin, Hres, Hall).
    rewrite distinct_cons_notin in * by done.
    rewrite int_incr_ok by lia.
    assert (length (fifo_frames st) = distinct seen) as Hlen.
    { apply NoDup_length_distinct; [apply Hres|].
      intros x. split; [apply Hres|apply Hall]. }
    rewrite decide_True by lia. cbn [outcome_bind fst snd].
    eexists. split; [done|]. split; [by apply resident_push_back|]. split.
    + cbn [fifo_frames]. intros x [->|?]%elem_of_cons; rewrite elem_of_app.
      * right. by apply list_elem_of_singleton.
      * left. auto.
    + cbn [fifo_faults]. rewrite distinct_cons_notin by done. lia.
Qed.

Lemma fits_length_suffix (l l' : list Z) :
  Z.of_nat (length (l' ++ l)) ≤ INT_MAX → Z.of_nat (length l) ≤ INT_MAX.
Proof. rewrite length_app. lia. Qed.

Lemma fits_distinct_suffix bound (l l' : list Z) :
  Z.of_nat (length (l' ++ l)) ≤ INT_MAX ∧ Z.of_nat (distinct (l' ++ l)) ≤ bound →
  Z.of_nat (length l) ≤ INT_MAX ∧ Z.of_nat (distinct l) ≤ bound.
Proof.
  intros [Hlen Hd]. split; [by eapply fits_length_suffix|].
  assert (distinct l ≤ distinct (l' ++ l))%nat; [|lia].
  apply distinct_mono. intros x ?. apply elem_of_app. by right.
Qed.

Lemma resident_nil : resident [] [] [].
Proof. split; [done|apply NoDup_nil_2|done]. Qed.

(** X17. simulateFIFO with frames: when [num_frames] is not 0 and the
    reference string has at most [INT_MAX] entries, the function
    completes, and the number of page faults is at least the number of
    different pages and at most the number of references. *)
Theorem simulateFIFO_bounds references num_frames :
  0 < size_wrap num_frames →
  Z.of_nat (length references) ≤ INT_MAX →
  ∃ faults, simulateFIFO references num_frames = Ret faults
            ∧ Z.of_nat (distinct references) ≤ faults
              ≤ Z.of_nat (length references).
Proof.
  intros Hframes Hlen.
  destruct (for_each_invariant (fifo_step num_frames) fifo_bounds
              (λ l, Z.of_nat (length l) ≤ INT_MAX) fits_length_suffix
              (λ seen st page, fifo_step_bounds num_frames seen st page Hframes)
              references [] (FifoState [] [] 0))
    as (st & Hrun & Hres & Hcount).
  - split; [apply resident_nil|done].
  - by rewrite app_nil_r, length_reverse.
  - rewrite app_nil_r, distinct_reverse, length_reverse in Hcount.
    exists (fifo_faults st). unfold simulateFIFO. by rewrite Hrun.
Qed.

(** X18. simulateFIFO with room for every page: when the number of
    different pages is at most [num_frames] (converted to [size_t], so
    also for every negative [num_frames]), the page faults are exactly the
    different pages. *)
Theorem simulateFIFO_enough_frames references num_frames :
  Z.of_nat (distinct references) ≤ size_wrap num_frames →
  Z.of_nat (length references) ≤ INT_MAX →
  simulateFIFO references num_frames = Ret (Z.of_nat (distinct references)).
Proof.
  intros Hroom Hlen.
  destruct (for_each_invariant (fifo_step num_frames) fifo_exact
              (λ l, Z.of_nat (length l) ≤ INT_MAX
                    ∧ Z.of_nat (distinct l) ≤ size_wrap num_frames)
              (fits_distinct_suffix _)
              (fifo_step_exact num_frames)
              references [] (FifoState [] [] 0))
    as (st & Hrun & _ & _ & Hcount).
  - split; [apply resident_nil|]. split; [|done]. by intros x ?%elem_of_nil.
  - by rewrite app_nil_r, length_reverse, distinct_reverse.
  - rewrite app_nil_r, distinct_reverse in Hcount.
    unfold simulateFIFO. rewrite Hrun. cbn. by rewrite Hcount.
Qed.

(** simulateFIFO without frames: with [num_frames] 0 the first
    reference takes [front()] of the empty queue. *)
Lemma simulateFIFO_no_frames page references :
  simulateFIFO (page :: references) 0 = Abort undefined_behavior.
Proof. done. Qed.

(** ** simulateLRU *)

Lemma elem_of_move_to_front page (frames : list Z) x :
  page ∈ frames →
  x ∈ page :: filter (λ y, y ≠ page) frames ↔ x ∈ frames.
Proof.
  intros Hin. rewrite elem_of_cons, list_elem_of_filter.
  destruct (decide (x = page)) as [->|]; tauto.
Qed.

Lemma resident_lru_hit seen frames pages page :
  resident seen frames pages → page ∈ pages →
  resident (page :: seen) (page :: filter (λ y, y ≠ page) frames) pages.
Proof.
  intros [Hp Hnd Hs] Hin. apply Hp in Hin as Hfr. split.
  - intros x. by rewrite elem_of_move_to_front, Hp.
  - apply NoDup_cons. split; [|by apply NoDup_filter].
    rewrite list_elem_of_filter. tauto.
  - intros x Hx%elem_of_move_to_front; [|done]. right. auto.
Qed.

Lemma resident_push_front seen frames pages page :
  resident seen frames pages → page ∉ pages →
  resident (page :: seen) (page :: frames) (set_insert page pages).
Proof.
  intros [Hp Hnd Hs] Hnew. split.
  - intros x. by rewrite elem_of_set_insert, elem_of_cons, Hp.
  - apply NoDup_cons. split; [|done]. intros ?. by apply Hnew, Hp.
  - intros x [->|?]%elem_of_cons; [left|right; auto].
Qed.

Lemma resident_lru_evict seen frames pages page lru_page :
  resident seen frames pages → last frames = Some lru_page → page ∉ pages →
  resident (page :: seen) (page :: removelast frames)
    (set_insert page (set_erase lru_page pages)).
Proof.
  intros [Hp Hnd Hs] [kept ->]%last_Some Hnew.
  rewrite removelast_last.
  apply NoDup_app in Hnd as (Hkept & Hlast & _). split.
  - intros x.
    rewrite elem_of_set_insert, elem_of_set_erase, elem_of_cons, Hp, elem_of_app,
      list_elem_of_singleton.
    split; [intros [->|[? [?|?]]]; auto; done|].
    intros [->|Hx]; [auto|]. right. split; [|auto].
    intros ->. by apply (Hlast lru_page Hx), list_elem_of_singleton.
  - apply NoDup_cons. split; [|done]. intros Hx. apply Hnew, Hp, elem_of_app. auto.
  - intros x [->|Hx]%elem_of_cons; [left|right]. apply Hs, elem_of_app. auto.
Qed.

Lemma lru_step_bounds num_frames seen st page :
  0 < size_wrap num_frames →
  lru_bounds seen st →
  Z.of_nat (length (page :: seen)) ≤ INT_MAX →
  ∃ st', lru_step num_frames st page = Ret st' ∧ lru_bounds (page :: seen) st'.
Proof.
  intros Hframes [Hres [Hlow Hhigh]] Hfit. cbn [length] in Hfit.
  unfold lru_step. case_decide as Hin.
  - eexists. split; [done|]. split; [by apply resident_lru_hit|].
    cbn [lru_faults].
    rewrite distinct_cons_in by (by apply Hres, Hres). cbn [length]. lia.
  - assert (Z.of_nat (distinct (page :: seen)) ≤ lru_faults st + 1
            ≤ Z.of_nat (length (page :: seen))) as Hcount.
    { cbn [length]. destruct (decide (page ∈ seen)).
      - rewrite distinct_cons_in by done. lia.
      - rewrite distinct_cons_notin by done. lia. }
    rewrite int_incr_ok by lia.
    case_decide as Hroom; cbn [outcome_bind fst snd].
    + eexists. split; [done|]. split; [|done]. by apply resident_push_front.
    + destruct (last (lru_frames st)) as [lru_page|] eqn:Hlast.
      * cbn [outcome_bind fst snd]. eexists. split; [done|]. split; [|done].
        by apply resident_lru_evict.
      * apply last_None in Hlast. rewrite Hlast in Hroom. cbn in Hroom. lia.
Qed.

Lemma lru_step_exact num_frames seen st page :
  lru_exact seen st →
  Z.of_nat (length (page :: seen)) ≤ INT_MAX
  ∧ Z.of_nat (distinct (page :: seen)) ≤ size_wrap num_frames →
  ∃ st', lru_step num_frames st page = Ret st' ∧ lru_exact (page :: seen) st'.
Proof.
  intros (Hres & Hall & Hfaults) [Hfit Hroom]. cbn [length] in Hfit.
  pose proof (distinct_le_length seen).
  unfold lru_step. case_decide as Hin.
  - eexists. split; [done|]. split; [by apply resident_lru_hit|].
    apply Hres in Hin as Hfr. cbn [lru_frames lru_faults]. split.
    + intros x Hx. apply elem_of_move_to_front; [done|].
      apply elem_of_cons in Hx as [->|?]; auto.
    + by rewrite distinct_cons_in by (by apply Hres).
  - assert (page ∉ seen) as Hnew by (intros ?; by apply Hin, Hres, Hall).
    rewrite distinct_cons_notin in Hroom by done.
    rewrite int_incr_ok by lia.
    assert (length (lru_frames st) = distinct seen) as Hlen.
    { apply NoDup_length_distinct; [apply Hres|].
      intros x. split; [apply Hres|apply Hall]. }
    rewrite decide_True by lia. cbn [outcome_bind fst snd].
    eexists. split; [done|]. split; [by apply resident_push_front|]. split.
    + cbn [lru_frames]. intros x [->|?]%elem_of_cons; [left|right; auto].
    + cbn [lru_faults]. rewrite distinct_cons_notin by done. lia.
Qed.

(** X19. simulateLRU with frames: when [num_frames] is not 0 and the
    reference string has at most [INT_MAX] entries, the function
    completes, and the number of page faults is at least the number of
    different pages and at most the number of references. *)
Theorem simulateLRU_bounds references num_frames :
  0 < size_wrap num_frames →
  Z.of_nat (length references) ≤ INT_MAX →
  ∃ faults, simulateLRU references num_frames = Ret faults
            ∧ Z.of_nat (distinct references) ≤ faults
              ≤ Z.of_nat (length references).
Proof.
  intros Hframes Hlen.
  destruct (for_each_invariant (lru_step num_frames) lru_bounds
              (λ l, Z.of_nat (length l) ≤ INT_MAX) fits_length_suffix
              (λ seen st page, lru_step_bounds num_frames seen st page Hframes)
              references [] (LruState [] [] 0))
    as (st & Hrun & Hres & Hcount).
  - split; [apply resident_nil|done].
  - by rewrite app_nil_r, length_reverse.
  - rewrite app_nil_r, distinct_reverse, length_reverse in Hcount.
    exists (lru_faults st). unfold simulateLRU. by rewrite Hrun.
Qed.

(** X20. simulateLRU with room for every page: when the number of
    different pages is at most [num_frames] (converted to [size_t]), the
    page faults are exactly the different pages. *)
Theorem simulateLRU_enough_frames references num_frames :
  Z.of_nat (distinct references) ≤ size_wrap num_frames →
  Z.of_nat (length references) ≤ INT_MAX →
  simulateLRU references num_frames = Ret (Z.of_nat (distinct references)).
Proof.
  intros Hroom Hlen.
  destruct (for_each_invariant (lru_step num_frames) lru_exact
              (λ l, Z.of_nat (length l) ≤ INT_MAX
                    ∧ Z.of_nat (distinct l) ≤ size_wrap num_frames)
              (fits_distinct_suffix _)
              (lru_step_exact num_frames)
              references [] (LruState [] [] 0))
    as (st & Hrun & _ & _ & Hcount).
  - split; [apply resident_nil|]. split; [|done]. by intros x ?%elem_of_nil.
  - by rewrite app_nil_r, length_reverse, distinct_reverse.
  - rewrite app_nil_r, distinct_reverse in Hcount.
    unfold simulateLRU. rewrite Hrun. cbn. by rewrite Hcount.
Qed.

(** simulateLRU without frames: with [num_frames] 0 the first
    reference takes [back()] of the empty list. *)
Lemma simulateLRU_no_frames page references :
  simulateLRU (page :: references) 0 = Abort undefined_behavior.
Proof. done. Qed.

(** ** simulateClock *)

Lemma elem_of_insert_inv {A} (l : list A) i x y :
  y ∈ <[i:=x]> l → y = x ∨ y ∈ l.
Proof.
  revert i. induction l as [|z l IH]; intros i; [by right|].
  destruct i as [|i]; cbn; rewrite !elem_of_cons; [tauto|].
  intros [->|Hy]; [tauto|]. destruct (IH i Hy); tauto.
Qed.

Lemma bits_cons entry frames :
  bits (entry :: frames) = ((if use_bit entry then 1 else 0) + bits frames)%nat.
Proof.
  unfold bits. rewrite filter_cons. destruct (use_bit entry); by case_decide.
Qed.

Lemma bits_le_length frames : (bits frames ≤ length frames)%nat.
Proof. apply length_filter. Qed.

Lemma bits_clear frames : ∀ i entry page,
  frames !! i = Some entry → use_bit entry = true →
  S (bits (<[i := Clock page false]> frames)) = bits frames.
Proof.
  induction frames as [|e frames IH]; intros i entry page; [done|].
  destruct i as [|i]; cbn [lookup list_lookup].
  - intros [= ->] Hbit. change (<[0%nat := ?x]> (entry :: frames)) with (x :: frames).
    rewrite !bits_cons, Hbit. by cbn.
  - intros Hi Hbit.
    change (<[S i := ?x]> (e :: frames)) with (e :: <[i := x]> frames).
    rewrite !bits_cons, <- (IH i entry page Hi Hbit). lia.
Qed.

Lemma touch_Some page frames frames' :
  touch page frames = Some frames' →
  length frames' = length frames
  ∧ page ∈ clock_page <$> frames
  ∧ ∀ entry, entry ∈ frames' → clock_page entry ∈ clock_page <$> frames.
Proof.
  revert frames'. induction frames as [|e frames IH]; intros frames'; [done|].
  cbn [touch]. case_decide as Heq.
  - intros [= <-]. split; [done|]. split; [rewrite fmap_cons, <- Heq; left|].
    intros entry [->|Hin]%elem_of_cons; rewrite fmap_cons; [left|right].
    by apply list_elem_of_fmap_2.
  - destruct (touch page frames) as [fr|]; [|done]. intros [= <-].
    destruct (IH fr eq_refl) as (Hlen & Hin & Hsub).
    split; [cbn; by rewrite Hlen|]. split; [rewrite fmap_cons; by right|].
    intros entry [->|Hentry]%elem_of_cons; rewrite fmap_cons; [left|right; auto].
Qed.

Lemma touch_None page frames :
  touch page frames = None → page ∉ clock_page <$> frames.
Proof.
  induction frames as [|e frames IH]; [by intros _ ?%elem_of_nil|].
  cbn [touch]. case_decide as Heq; [done|].
  destruct (touch page frames) as [fr|]; [done|]. intros _.
  rewrite fmap_cons, elem_of_cons. intros [->|?]; [done|]. by apply IH.
Qed.

Lemma touch_is_Some page frames :
  page ∈ clock_page <$> frames → is_Some (touch page frames).
Proof.
  intros Hin. destruct (touch page frames) eqn:Ht; [done|].
  by apply touch_None in Ht.
Qed.

(** The victim search ends within one turn more than there are set use
    bits. *)
Lemma sweep_finds (fuel : nat) : ∀ page frames h,
  0 < Z.of_nat (length frames) ≤ INT_MAX →
  0 ≤ h < Z.of_nat (length frames) →
  (bits frames < fuel)%nat →
  ∃ frames' h',
    sweep fuel (Z.of_nat (length frames)) page frames h = Ret (Some (frames', h'))
    ∧ length frames' = length frames
    ∧ 0 ≤ h' < Z.of_nat (length frames)
    ∧ ∀ entry, entry ∈ frames' →
        clock_page entry = page ∨ clock_page entry ∈ clock_page <$> frames.
Proof.
  induction fuel as [|fuel IH]; intros page frames h Hn Hh Hbits; [lia|].
  unfold INT_MAX in *.
  assert (size_wrap h = h) as Hwrap by (apply size_wrap_small; lia).
  destruct (lookup_lt_is_Some_2 frames (Z.to_nat h)) as [entry Hentry]; [lia|].
  assert (int_rem (h + 1) (Z.of_nat (length frames))
          = Ret ((h + 1) mod Z.of_nat (length frames))) as Hrem.
  { unfold int_rem, INT_MIN. rewrite decide_False by lia.
    by rewrite Z.rem_mod_nonneg by lia. }
  pose proof (Z.mod_pos_bound (h + 1) (Z.of_nat (length frames)) ltac:(lia)).
  cbn [sweep]. unfold at_index. rewrite Hwrap, decide_True, Hentry by lia.
  cbn [defined outcome_bind]. rewrite int_incr_ok by (unfold INT_MAX; lia).
  cbn [outcome_bind]. rewrite Hrem. cbn [outcome_bind].
  destruct (use_bit entry) eqn:Hbit.
  - pose proof (bits_clear frames _ entry (clock_page entry) Hentry Hbit) as Hclear.
    destruct (IH page (<[Z.to_nat h := Clock (clock_page entry) false]> frames)
                ((h + 1) mod Z.of_nat (length frames)))
      as (frames' & h' & Hrun & Hlen & Hh' & Hsub);
      rewrite ?length_insert; [lia..|].
    rewrite !length_insert in *. exists frames', h'.
    split; [done|]. split; [done|]. split; [done|].
    intros e He. destruct (Hsub e He) as [?|Hin]; [by left|right].
    apply list_elem_of_fmap in Hin as (e' & -> & [->|?]%elem_of_insert_inv).
    + cbn. apply list_elem_of_fmap_2. by eapply list_elem_of_lookup_2.
    + by apply list_elem_of_fmap_2.
  - eexists _, _. split; [done|]. rewrite length_insert.
    split; [done|]. split; [done|].
    intros e [->|?]%elem_of_insert_inv; [by left|right].
    by apply list_elem_of_fmap_2.
Qed.

Lemma clock_step_bounds (fuel n : nat) seen st page :
  0 < Z.of_nat n ≤ INT_MAX → (n < fuel)%nat →
  clock_bounds n seen st →
  Z.of_nat (length (page :: seen)) ≤ INT_MAX →
  ∃ st', clock_step fuel (Z.of_nat n) st page = Ret (Some st')
         ∧ clock_bounds n (page :: seen) st'.
Proof.
  intros Hn Hfuel (Hlen & Hhand & Hpages & [Hpos Hhigh] & Hlow) Hfit.
  cbn [length] in Hfit. unfold clock_step.
  destruct (touch page (clock_frames st)) as [frames|] eqn:Ht.
  - destruct (touch_Some _ _ _ Ht) as (Hlen' & Hin & Hsub).
    eexists. split; [done|]. unfold clock_bounds. cbn [clock_frames hand clock_faults].
    split; [congruence|]. split; [done|]. split; [|split].
    + intros entry He. apply Hsub, list_elem_of_fmap in He as (e' & -> & He').
      destruct (Hpages e' He'); [by left|right; by right].
    + cbn [length]. lia.
    + intros Hminus. apply not_elem_of_cons in Hminus as [Hne Hminus].
      apply list_elem_of_fmap in Hin as (e' & -> & He').
      destruct (Hpages e' He') as [?|Hseen]; [congruence|].
      rewrite distinct_cons_in by done. auto.
  - apply touch_None in Ht.
    pose proof (bits_le_length (clock_frames st)).
    destruct (sweep_finds fuel page (clock_frames st) (hand st))
      as (frames' & h' & Hrun & Hlen' & Hh' & Hsub); rewrite ?Hlen; [lia..|].
    rewrite Hlen in Hrun. rewrite Hrun. cbn [outcome_bind fst snd].
    rewrite int_incr_ok by lia. cbn [outcome_bind].
    eexists. split; [done|]. unfold clock_bounds. cbn [clock_frames hand clock_faults].
    split; [congruence|]. split; [lia|]. split; [|split].
    + intros entry He. destruct (Hsub entry He) as [->|Hin]; [right; by left|].
      apply list_elem_of_fmap in Hin as (e' & -> & He').
      destruct (Hpages e' He'); [by left|right; by right].
    + cbn [length]. lia.
    + intros Hminus. apply not_elem_of_cons in Hminus as [Hne Hminus].
      specialize (Hlow Hminus).
      destruct (decide (page ∈ seen)).
      * rewrite distinct_cons_in by done. lia.
      * rewrite distinct_cons_notin by done. lia.
Qed.

Lemma clock_run_bounds (fuel n : nat) references : ∀ seen st,
  0 < Z.of_nat n ≤ INT_MAX → (n < fuel)%nat →
  clock_bounds n seen st →
  Z.of_nat (length (reverse references ++ seen)) ≤ INT_MAX →
  ∃ st', clock_run fuel (Z.of_nat n) references st = Ret (Some st')
         ∧ clock_bounds n (reverse references ++ seen) st'.
Proof.
  induction references as [|page rest IH]; intros seen st Hn Hfuel Hinv Hfit.
  - by exists st.
  - rewrite reverse_cons, <- app_assoc in *. cbn [app] in *.
    destruct (clock_step_bounds fuel n seen st page Hn Hfuel Hinv)
      as (st1 & Hret & Hinv1).
    { rewrite length_app in Hfit. cbn [length] in *. lia. }
    destruct (IH _ _ Hn Hfuel Hinv1 Hfit) as (st' & Hrun & Hinv').
    exists st'. cbn [clock_run]. by rewrite Hret.
Qed.

(** X21. simulateClock with frames: for [0 < num_frames] and a reference
    string of at most [INT_MAX] entries, every search for a victim ends
    within [num_frames + 1] turns, the function completes, and the number
    of page faults is at most the number of references; it is at least
    the number of different pages when page [-1], the mark of an empty
    frame, is not referenced. *)
Theorem simulateClock_bounds (fuel : nat) references num_frames :
  0 < num_frames ≤ INT_MAX →
  num_frames < Z.of_nat fuel →
  Z.of_nat (length references) ≤ INT_MAX →
  ∃ faults, simulateClock fuel references num_frames = Ret (Some faults)
            ∧ 0 ≤ faults ≤ Z.of_nat (length references)
            ∧ (-1 ∉ references → Z.of_nat (distinct references) ≤ faults).
Proof.
  intros Hn Hfuel Hlen.
  destruct (clock_run_bounds fuel (Z.to_nat num_frames) references []
              (ClockState (replicate (Z.to_nat num_frames) (Clock (-1) false)) 0 0))
    as (st & Hrun & _ & _ & _ & Hhigh & Hlow); [lia..| | |].
  - unfold clock_bounds. cbn [clock_frames hand clock_faults length].
    rewrite length_replicate. split; [done|]. split; [lia|]. split; [|done].
    intros entry ->%elem_of_replicate_inv. by left.
  - by rewrite app_nil_r, length_reverse.
  - rewrite app_nil_r, length_reverse, distinct_reverse in *.
    rewrite Z2Nat.id in Hrun by lia.
    exists (clock_faults st). unfold simulateClock. rewrite Hrun.
    split; [done|]. split; [done|].
    intros Hminus. apply Hlow. by rewrite elem_of_reverse.
Qed.

(** simulateClock without frames: with [num_frames <= 0] there is no
    frame, and the first reference reads [frames[0]] of the empty
    vector. *)
Lemma simulateClock_no_frames (fuel : nat) page references num_frames :
  num_frames ≤ 0 →
  simulateClock (S fuel) (page :: references) num_frames
  = Abort undefined_behavior.
Proof.
  intros Hn. unfold simulateClock. by replace (Z.to_nat num_frames) with 0%nat by lia.
Qed.

Lemma touch_filled page filled rest :
  page ∈ filled →
  touch page (((λ p, Clock p true) <$> filled) ++ rest)
  = Some (((λ p, Clock p true) <$> filled) ++ rest).
Proof.
  induction filled as [|p filled IH]; [by intros ?%elem_of_nil|].
  intros Hin. cbn [fmap list_fmap app touch clock_page].
  case_decide as Heq; [done|].
  apply elem_of_cons in Hin as [->|Hin]; [done|].
  change (list_fmap Z ClockEntry ?f filled) with (f <$> filled).
  by rewrite IH.
Qed.

Lemma touch_absent page frames :
  page ∉ clock_page <$> frames → touch page frames = None.
Proof.
  intros Hnot. destruct (touch page frames) as [fr|] eqn:Ht; [|done].
  by destruct (touch_Some _ _ _ Ht) as (_ & ? & _).
Qed.

Lemma clock_step_exact (fuel n : nat) seen st page :
  0 < Z.of_nat n ≤ INT_MAX →
  clock_exact n seen st →
  (-1 ∉ page :: seen) ∧ (distinct (page :: seen) ≤ n)%nat →
  ∃ st', clock_step (S fuel) (Z.of_nat n) st page = Ret (Some st')
         ∧ clock_exact n (page :: seen) st'.
Proof.
  intros Hn (filled & Hnd & Hsame & Hlen & Hframes & Hhand & Hfaults) [Hminus Hroom].
  apply not_elem_of_cons in Hminus as [Hpage Hminus].
  unfold clock_step. rewrite Hframes. unfold filled_frames.
  destruct (decide (page ∈ seen)) as [Hin|Hnew].
  - rewrite touch_filled by (by apply Hsame).
    eexists. split; [done|]. exists filled.
    split; [done|]. split; [|done].
    intros x. rewrite elem_of_cons, Hsame. split; [auto|]. by intros [->|?].
  - rewrite touch_absent.
    2: { rewrite fmap_app, <- list_fmap_compose, elem_of_app.
         intros [Hx|Hx].
         - apply list_elem_of_fmap in Hx as (y & -> & Hy). by apply Hnew, Hsame.
         - apply list_elem_of_fmap in Hx as (e & -> & ->%elem_of_replicate_inv).
           by apply Hpage. }
    rewrite distinct_cons_notin in Hroom by done.
    rewrite <- (NoDup_length_distinct filled seen Hnd Hsame) in Hroom.
    rewrite Z.mod_small in Hhand by lia.
    unfold INT_MAX in *.
    set (h := Z.of_nat (length filled)) in *.
    assert (size_wrap h = h) as Hwrap by (apply size_wrap_small; lia).
    assert (int_rem (h + 1) (Z.of_nat n) = Ret ((h + 1) mod Z.of_nat n)) as Hrem.
    { unfold int_rem, INT_MIN. rewrite decide_False by lia.
      by rewrite Z.rem_mod_nonneg by lia. }
    cbn [sweep]. unfold at_index. rewrite Hhand, Hfaults.
    rewrite Hwrap, decide_True
      by (rewrite length_app, length_fmap, length_replicate; lia).
    unfold h at 1 4. rewrite Nat2Z.id.
    rewrite lookup_app_r by (rewrite length_fmap; lia).
    rewrite length_fmap, Nat.sub_diag, lookup_replicate_2 by lia.
    cbn [defined outcome_bind use_bit].
    rewrite int_incr_ok by (unfold INT_MAX; lia). cbn [outcome_bind].
    rewrite Hrem. cbn [outcome_bind fst snd].
    eexists. split; [done|]. exists (filled ++ [page]).
    cbn [clock_frames hand clock_faults].
    rewrite length_app. cbn [length].
    split; [|split; [|split; [lia|split; [|split]]]].
    + apply NoDup_app. split_and!; [done| |apply NoDup_singleton].
      intros x Hx ->%list_elem_of_singleton. by apply Hnew, Hsame.
    + intros x. rewrite elem_of_app, list_elem_of_singleton, elem_of_cons, Hsame.
      tauto.
    + unfold filled_frames. rewrite fmap_app, <- app_assoc. cbn [fmap list_fmap app].
      rewrite <- (length_fmap (λ p, Clock p true) filled) at 1.
      rewrite <- (Nat.add_0_r (length _)), insert_app_r. f_equal.
      rewrite length_app. cbn [length].
      replace (n - length filled)%nat with (S (n - (length filled + 1))) by lia.
      done.
    + unfold h. f_equal. lia.
    + unfold h. lia.
Qed.

Lemma clock_run_exact (fuel n : nat) references : ∀ seen st,
  0 < Z.of_nat n ≤ INT_MAX →
  clock_exact n seen st →
  (-1 ∉ reverse references ++ seen)
  ∧ (distinct (reverse references ++ seen) ≤ n)%nat →
  ∃ st', clock_run (S fuel) (Z.of_nat n) references st = Ret (Some st')
         ∧ clock_exact n (reverse references ++ seen) st'.
Proof.
  induction references as [|page rest IH]; intros seen st Hn Hinv Hfit.
  - by exists st.
  - rewrite reverse_cons, <- app_assoc in *. cbn [app] in *.
    destruct Hfit as [Hminus Hroom].
    destruct (clock_step_exact fuel n seen st page Hn Hinv) as (st1 & Hret & Hinv1).
    { split.
      - intros Hin. apply Hminus, elem_of_app. by right.
      - etrans; [|exact Hroom]. apply distinct_mono.
        intros x ?. apply elem_of_app. by right. }
    destruct (IH _ _ Hn Hinv1 (conj Hminus Hroom)) as (st' & Hrun & Hinv').
    exists st'. cbn [clock_run]. by rewrite Hret.
Qed.

(** X22. simulateClock with room for every page: for [0 < num_frames],
    when page [-1] is not referenced and the number of different pages is
    at most [num_frames], no page is ever replaced and the page faults
    are exactly the different pages. *)
Theorem simulateClock_enough_frames (fuel : nat) references num_frames :
  0 < num_frames ≤ INT_MAX →
  -1 ∉ references →
  Z.of_nat (distinct references) ≤ num_frames →
  simulateClock (S fuel) references num_frames
  = Ret (Some (Z.of_nat (distinct references))).
Proof.
  intros Hn Hminus Hroom.
  destruct (clock_run_exact fuel (Z.to_nat num_frames) references []
              (ClockState (replicate (Z.to_nat num_frames) (Clock (-1) false)) 0 0))
    as (st & Hrun & filled & Hnd & Hsame & _ & _ & _ & Hfaults); [lia| | |].
  - exists []. cbn [clock_frames hand clock_faults length].
    split; [apply NoDup_nil_2|]. split; [done|]. split; [lia|].
    split; [unfold filled_frames; cbn; f_equal; lia|]. split; [|done].
    by rewrite Z.mod_0_l by lia.
  - rewrite app_nil_r, distinct_reverse. split; [|lia]. by rewrite elem_of_reverse.
  - rewrite app_nil_r in Hsame. rewrite Z2Nat.id in Hrun by lia.
    unfold simulateClock. rewrite Hrun. cbn. rewrite Hfaults.
    do 3 f_equal. rewrite <- distinct_reverse. by apply NoDup_length_distinct.
Qed.

Lemma clock_run_sentinel (fuel : nat) num_frames (k : nat) : ∀ bit rest h faults,
  ∃ bit',
    clock_run fuel num_frames (replicate k (-1))
      (ClockState (Clock (-1) bit :: rest) h faults)
    = Ret (Some (ClockState (Clock (-1) bit' :: rest) h faults)).
Proof.
  induction k as [|k IH]; intros bit rest h faults; [by exists bit|].
  destruct (IH true rest h faults) as [bit' Hrun]. exists bit'.
  cbn [replicate clock_run]. unfold clock_step. cbn [clock_frames touch clock_page].
  rewrite decide_True by done. cbn [outcome_bind hand clock_faults]. exact Hrun.
Qed.

(** X23. Page [-1] is taken for a page in memory while the first frame is
    empty: for [0 < num_frames], a reference string of [-1]s causes no
    page fault at all. *)
Theorem simulateClock_empty_mark (fuel k : nat) num_frames :
  0 < num_frames →
  simulateClock fuel (replicate k (-1)) num_frames = Ret (Some 0).
Proof.
  intros Hn. unfold simulateClock.
  replace (Z.to_nat num_frames) with (S (Z.to_nat (num_frames - 1))) by lia.
  cbn [replicate].
  destruct (clock_run_sentinel fuel num_frames k false
              (replicate (Z.to_nat (num_frames - 1)) (Clock (-1) false)) 0 0)
    as [bit' ->].
  done.
Qed.

(** ** simulateOptimal *)

Lemma to_int_small z : - 2 ^ 31 ≤ z ≤ INT_MAX → to_int z = z.
Proof.
  unfold INT_MAX, to_int. intros Hz. rewrite Z.mod_small by lia. lia.
Qed.

Lemma at_index_lookup {A} (v : list A) i x :
  0 ≤ i < 2 ^ 64 → v !! Z.to_nat i = Some x → at_index v i = Ret x.
Proof.
  intros Hi Hx. pose proof (lookup_lt_Some _ _ _ Hx) as Hlt.
  unfold at_index. rewrite size_wrap_small by done.
  rewrite decide_True by lia. by rewrite Hx.
Qed.

Lemma distinct_snoc l x : distinct (l ++ [x]) = distinct (x :: l).
Proof.
  apply distinct_ext. intros y.
  rewrite elem_of_app, list_elem_of_singleton, elem_of_cons. tauto.
Qed.

Lemma NoDup_length_le_distinct (l seen : list Z) :
  NoDup l → (∀ x, x ∈ l → x ∈ seen) → (length l ≤ distinct seen)%nat.
Proof.
  intros Hnd Hsub. unfold distinct. apply submseteq_length, NoDup_submseteq; [done|].
  intros x Hx. apply elem_of_remove_dups. auto.
Qed.

Lemma NoDup_insert_fresh (l : list Z) i x :
  NoDup l → x ∉ l → (i < length l)%nat → NoDup (<[i:=x]> l).
Proof.
  intros Hnd Hx Hi.
  destruct (lookup_lt_is_Some_2 l i Hi) as [y Hy].
  rewrite insert_take_drop by done.
  rewrite <- (take_drop_middle l i y Hy) in Hnd, Hx.
  apply NoDup_app in Hnd as (Hl & Hdisj & Hr). apply NoDup_cons in Hr as [_ Hr].
  rewrite elem_of_app, elem_of_cons in Hx.
  apply NoDup_app. split_and!; [done| |].
  - intros z Hz [->|Hz']%elem_of_cons; [tauto|].
    apply (Hdisj z Hz). by right.
  - apply NoDup_cons. split; [tauto|done].
Qed.

Lemma next_use_spec references frame (n : nat) : ∀ k,
  0 ≤ k → k + Z.of_nat n = Z.of_nat (length references) →
  Z.of_nat (length references) ≤ INT_MAX →
  ∃ k', next_use n k frame references = Ret k'
        ∧ k ≤ k' ≤ Z.of_nat (length references)
        ∧ (∀ m : nat, k ≤ Z.of_nat m < k' → references !! m ≠ Some frame)
        ∧ (k' < Z.of_nat (length references) →
           references !! Z.to_nat k' = Some frame).
Proof.
  induction n as [|n IH]; intros k Hk Hn Hmax.
  - exists k. cbn [next_use]. split; [done|]. split; [lia|]. split; intros; lia.
  - destruct (lookup_lt_is_Some_2 references (Z.to_nat k)) as [r Hr]; [lia|].
    unfold INT_MAX in *.
    cbn [next_use]. rewrite (at_index_lookup _ _ r) by (done || lia).
    cbn [outcome_bind]. case_decide as Heq.
    + exists k. split; [done|]. split; [lia|]. split; [intros; lia|]. by subst.
    + rewrite int_incr_ok by (unfold INT_MAX; lia). cbn [outcome_bind].
      destruct (IH (k + 1)) as (k' & Hrun & Hrange & Hnone & Hsome); [lia..|].
      exists k'. split; [done|]. split; [lia|]. split; [|done].
      intros m Hm. destruct (decide (Z.of_nat m = k)) as [<-|].
      * rewrite Nat2Z.id in Hr. congruence.
      * apply Hnone. lia.
Qed.

Lemma used_by_mono references i bound bound' page :
  bound ≤ bound' → used_by references i bound page →
  used_by references i bound' page.
Proof. intros Hle (m & Hm & Hpage). exists m. split; [lia|done]. Qed.

Lemma choose_spec references frames i (n : nat) : ∀ j farthest index,
  Z.of_nat (length references) ≤ INT_MAX →
  0 ≤ i < Z.of_nat (length references) →
  Z.of_nat (length frames) ≤ INT_MAX →
  0 ≤ j → j + Z.of_nat n = Z.of_nat (length frames) →
  choosing references frames i j farthest index →
  ∃ r, choose n j i references frames farthest index = Ret r
       ∧ chosen references frames i r.
Proof.
  induction n as [|n IH]; intros j farthest index Hrefs Hi Hframes Hj Hn Hinv.
  - exists index. split; [done|].
    destruct Hinv as [(-> & -> & ->)|(Hidx & (page & Hpage & Hnext) & Hused)].
    + left. split; [done|]. destruct frames; [done|cbn in Hn; lia].
    + right. split; [lia|]. exists page. split; [done|]. right.
      exists farthest. split; [done|].
      intros other (j' & Hother)%list_elem_of_lookup.
      apply (Hused j' other); [|done]. apply lookup_lt_Some in Hother. lia.
  - unfold INT_MAX in *.
    destruct (lookup_lt_is_Some_2 frames (Z.to_nat j)) as [frame Hframe]; [lia|].
    cbn [choose]. rewrite (at_index_lookup _ _ frame) by (done || lia).
    cbn [outcome_bind].
    assert (size_add i 1 = i + 1) as -> by (apply size_wrap_small; lia).
    rewrite to_int_small by (unfold INT_MAX; lia).
    rewrite (size_wrap_small (i + 1)) by lia.
    destruct (next_use_spec references frame
                (Z.to_nat (Z.of_nat (length references) - (i + 1))) (i + 1))
      as (k & Hrun & Hrange & Hnone & Hsome); [unfold INT_MAX; lia..|].
    rewrite Hrun. cbn [outcome_bind].
    rewrite (size_wrap_small k) by lia.
    case_decide as Hend.
    + exists j. split; [done|]. right. split; [lia|]. exists frame.
      split; [done|]. left. intros m Hm Hpage.
      apply lookup_lt_Some in Hpage as Hlt. apply (Hnone m); [lia|done].
    + rewrite int_incr_ok by (unfold INT_MAX; lia). cbn [outcome_bind].
      specialize (Hsome ltac:(lia)).
      assert (next_used_at references i k frame) as Hnext.
      { split; [lia|]. split; [done|]. intros m Hm. apply Hnone. lia. }
      assert (used_by references i k frame) as Hk.
      { exists (Z.to_nat k). split; [lia|done]. }
      apply IH; [unfold INT_MAX; lia..|].
      right. destruct Hinv as [(-> & -> & ->)|(Hidx & (page & Hpage & Hfar) & Hused)].
      * rewrite bool_decide_true by lia. split; [lia|]. split; [by exists frame|].
        intros j' other Hj' Hother. assert (j' = 0%nat) as -> by lia.
        change (Z.to_nat 0) with 0%nat in Hframe. congruence.
      * case_bool_decide as Hlater.
        -- split; [lia|]. split; [by exists frame|].
           intros j' other Hj' Hother.
           destruct (decide (Z.of_nat j' = j)) as [<-|].
           ++ rewrite Nat2Z.id in Hframe. congruence.
           ++ apply (used_by_mono _ _ farthest); [lia|].
              apply (Hused j' other); [lia|done].
        -- split; [lia|]. split; [by exists page|].
           intros j' other Hj' Hother.
           destruct (decide (Z.of_nat j' = j)) as [<-|].
           ++ rewrite Nat2Z.id in Hframe.
              apply (used_by_mono _ _ k); [lia|]. congruence.
           ++ apply (Hused j' other); [lia|done].
Qed.

(** X24. The victim of simulateOptimal: for a reference string of at most
    [INT_MAX] entries and frames that are not empty, the loop over the
    frames settles on a frame whose page is not referenced again after
    index [i], when there is one; otherwise on a frame whose page is
    referenced again only when every page in the frames has been
    referenced. *)
Theorem optimal_victim references frames i :
  Z.of_nat (length references) ≤ INT_MAX →
  0 ≤ i < Z.of_nat (length references) →
  0 < Z.of_nat (length frames) ≤ INT_MAX →
  ∃ r page,
    choose (length frames) 0 i references frames (to_int i) (-1) = Ret r
    ∧ frames !! Z.to_nat r = Some page
    ∧ 0 ≤ r < Z.of_nat (length frames)
    ∧ (unused_after references i page
       ∨ ∃ next, next_used_at references i next page
                 ∧ ∀ other, other ∈ frames → used_by references i next other).
Proof.
  intros Hrefs Hi Hframes.
  rewrite to_int_small by (unfold INT_MAX in *; lia).
  assert (choosing references frames i 0 i (-1)) as Hstart by (by left).
  destruct (choose_spec references frames i (length frames) 0 i (-1)
              Hrefs Hi (proj2 Hframes) ltac:(lia) ltac:(lia) Hstart)
    as (r & Hrun & [[_ ->]|(Hr & page & Hpage & Hchoice)]).
  - cbn in Hframes. lia.
  - exists r, page. split_and!; done || lia.
Qed.

Lemma elem_of_insert_fresh (l : list Z) i x y :
  y ∈ <[i:=x]> l → y = x ∨ y ∈ l.
Proof. apply elem_of_insert_inv. Qed.

Lemma optimal_replace num_frames references (i : nat) frames page :
  0 < size_wrap num_frames →
  Z.of_nat (length references) ≤ INT_MAX →
  (i < length references)%nat →
  Z.of_nat (length frames) ≤ INT_MAX →
  ¬ Z.of_nat (length frames) < size_wrap num_frames →
  NoDup frames → page ∉ frames →
  ∃ r frames',
    outcome_bind
      (choose (length frames) 0 (Z.of_nat i) references frames
              (to_int (Z.of_nat i)) (-1))
      (λ index_to_replace,
         store_at frames (if decide (index_to_replace = -1) then 0
                          else index_to_replace) page)
    = Ret frames'
    ∧ frames' = <[r := page]> frames ∧ (r < length frames)%nat.
Proof.
  intros Hn Hrefs Hi Hlen Hfull Hnd Hpage.
  destruct (optimal_victim references frames (Z.of_nat i) Hrefs)
    as (r & victim & Hrun & Hvictim & Hr & _); [lia..|].
  rewrite Hrun. cbn [outcome_bind]. rewrite decide_False by lia.
  unfold store_at, INT_MAX in *. rewrite size_wrap_small by lia.
  rewrite decide_True by lia. exists (Z.to_nat r). eexists.
  split; [done|]. split; [done|lia].
Qed.

Lemma optimal_step_bounds num_frames references (i : nat) page st :
  0 < size_wrap num_frames →
  Z.of_nat (length references) ≤ INT_MAX →
  references !! i = Some page →
  optimal_bounds (take i references) st →
  ∃ st', optimal_step num_frames references (Z.of_nat i) st = Ret st'
         ∧ optimal_bounds (take (S i) references) st'.
Proof.
  intros Hn Hrefs Hpage (Hnd & Hsub & Hfaults).
  pose proof (lookup_lt_Some _ _ _ Hpage) as Hi.
  rewrite (take_S_r _ _ _ Hpage), length_take_le in * by lia.
  set (seen := take i references) in *.
  assert (length seen = i) as Hseen by (unfold seen; rewrite length_take_le; lia).
  pose proof (NoDup_length_le_distinct _ _ Hnd Hsub).
  pose proof (distinct_le_length seen).
  unfold optimal_step, INT_MAX in *.
  rewrite (at_index_lookup _ _ page) by (rewrite ?Nat2Z.id; done || lia).
  cbn [outcome_bind]. case_decide as Hin.
  - exists st. split; [done|]. split; [done|].
    split; [intros x ?; apply elem_of_app; auto|].
    rewrite distinct_snoc, distinct_cons_in, length_app by auto. cbn [length]. lia.
  - assert (Z.of_nat (distinct (seen ++ [page])) ≤ optimal_faults st + 1
            ≤ Z.of_nat (length (seen ++ [page]))) as Hcount.
    { rewrite distinct_snoc, length_app. cbn [length].
      destruct (decide (page ∈ seen)).
      - rewrite distinct_cons_in by done. lia.
      - rewrite distinct_cons_notin by done. lia. }
    case_decide as Hroom.
    + cbn [outcome_bind]. rewrite int_incr_ok by (unfold INT_MAX; lia).
      cbn [outcome_bind]. eexists. split; [done|]. split; [|split; [|done]].
      * cbn [optimal_frames]. apply NoDup_app. split_and!; [done| |apply NoDup_singleton].
        by intros x ? ->%list_elem_of_singleton.
      * cbn [optimal_frames]. intros x [?|?]%elem_of_app; apply elem_of_app; auto.
    + destruct (optimal_replace num_frames references i (optimal_frames st) page)
        as (r & frames' & Hrun & -> & Hr); [unfold INT_MAX; done || lia..|].
      rewrite Hrun. cbn [outcome_bind]. rewrite int_incr_ok by (unfold INT_MAX; lia).
      cbn [outcome_bind]. eexists. split; [done|]. split; [|split; [|done]].
      * by apply NoDup_insert_fresh.
      * cbn [optimal_frames]. intros x [->|?]%elem_of_insert_fresh; apply elem_of_app.
        -- right. by apply list_elem_of_singleton.
        -- auto.
Qed.

Lemma optimal_loop_bounds num_frames references (n : nat) : ∀ (i : nat) st,
  0 < size_wrap num_frames →
  Z.of_nat (length references) ≤ INT_MAX →
  (i + n = length references)%nat →
  optimal_bounds (take i references) st →
  ∃ st', optimal_loop n num_frames references (Z.of_nat i) st = Ret st'
         ∧ optimal_bounds references st'.
Proof.
  induction n as [|n IH]; intros i st Hn Hrefs Hlen Hinv.
  - exists st. split; [done|]. by rewrite take_ge in Hinv by lia.
  - destruct (lookup_lt_is_Some_2 references i) as [page Hpage]; [lia|].
    destruct (optimal_step_bounds num_frames references i page st)
      as (st1 & Hstep & Hinv1); [done..|].
    destruct (IH (S i) st1) as (st' & Hrun & Hinv'); [done|done|lia|done|].
    exists st'. cbn [optimal_loop]. rewrite Hstep. cbn [outcome_bind].
    unfold INT_MAX in *.
    replace (size_add (Z.of_nat i) 1) with (Z.of_nat (S i))
      by (symmetry; rewrite Nat2Z.inj_succ; apply size_wrap_small; lia).
    by rewrite Hrun.
Qed.

(** X25. simulateOptimal with frames: when [num_frames] is not 0 and the
    reference string has at most [INT_MAX] entries, the function
    completes, and the number of page faults is at least the number of
    different pages and at most the number of references. *)
Theorem simulateOptimal_bounds references num_frames :
  0 < size_wrap num_frames →
  Z.of_nat (length references) ≤ INT_MAX →
  ∃ faults, simulateOptimal references num_frames = Ret faults
            ∧ Z.of_nat (distinct references) ≤ faults
              ≤ Z.of_nat (length references).
Proof.
  intros Hn Hrefs.
  destruct (optimal_loop_bounds num_frames references (length references) 0
              (OptimalState [] 0))
    as (st & Hrun & _ & _ & Hcount); [done|done|done| |].
  - split; [apply NoDup_nil_2|]. split; [by intros x ?%elem_of_nil|done].
  - exists (optimal_faults st). unfold simulateOptimal.
    change 0 with (Z.of_nat 0) at 1. by rewrite Hrun.
Qed.

Lemma optimal_step_exact num_frames references (i : nat) page st :
  Z.of_nat (distinct references) ≤ size_wrap num_frames →
  Z.of_nat (length references) ≤ INT_MAX →
  references !! i = Some page →
  optimal_exact (take i references) st →
  ∃ st', optimal_step num_frames references (Z.of_nat i) st = Ret st'
         ∧ optimal_exact (take (S i) references) st'.
Proof.
  intros Hroom Hrefs Hpage (Hnd & Hsame & Hfaults).
  pose proof (lookup_lt_Some _ _ _ Hpage) as Hi.
  assert (distinct (take (S i) references) ≤ distinct references)%nat as Hmono.
  { apply distinct_mono. intros x. apply subseteq_take. }
  rewrite (take_S_r _ _ _ Hpage) in *.
  set (seen := take i references) in *.
  pose proof (NoDup_length_distinct _ _ Hnd Hsame) as Hlen.
  pose proof (distinct_le_length references).
  unfold optimal_step, INT_MAX in *.
  rewrite (at_index_lookup _ _ page) by (rewrite ?Nat2Z.id; done || lia).
  cbn [outcome_bind]. rewrite distinct_snoc in *. case_decide as Hin.
  - exists st. split; [done|]. split; [done|]. split.
    + intros x. rewrite elem_of_app, list_elem_of_singleton, Hsame.
      split; [auto|]. intros [?| ->]; [done|]. by apply Hsame.
    + by rewrite distinct_snoc, distinct_cons_in by (by apply Hsame).
  - assert (page ∉ seen) as Hnew by (by rewrite <- Hsame).
    rewrite distinct_cons_notin in * by done.
    rewrite decide_True by lia. cbn [outcome_bind].
    rewrite int_incr_ok by (unfold INT_MAX; lia). cbn [outcome_bind].
    eexists. split; [done|]. unfold optimal_exact.
    cbn [optimal_frames optimal_faults]. split; [|split].
    + apply NoDup_app. split_and!; [done| |apply NoDup_singleton].
      by intros x ? ->%list_elem_of_singleton.
    + intros x. by rewrite !elem_of_app, Hsame.
    + rewrite distinct_snoc, distinct_cons_notin by done. lia.
Qed.

Lemma optimal_loop_exact num_frames references (n : nat) : ∀ (i : nat) st,
  Z.of_nat (distinct references) ≤ size_wrap num_frames →
  Z.of_nat (length references) ≤ INT_MAX →
  (i + n = length references)%nat →
  optimal_exact (take i references) st →
  ∃ st', optimal_loop n num_frames references (Z.of_nat i) st = Ret st'
         ∧ optimal_exact references st'.
Proof.
  induction n as [|n IH]; intros i st Hn Hrefs Hlen Hinv.
  - exists st. split; [done|]. by rewrite take_ge in Hinv by lia.
  - destruct (lookup_lt_is_Some_2 references i) as [page Hpage]; [lia|].
    destruct (optimal_step_exact num_frames references i page st)
      as (st1 & Hstep & Hinv1); [done..|].
    destruct (IH (S i) st1) as (st' & Hrun & Hinv'); [done|done|lia|done|].
    exists st'. cbn [optimal_loop]. rewrite Hstep. cbn [outcome_bind].
    unfold INT_MAX in *.
    replace (size_add (Z.of_nat i) 1) with (Z.of_nat (S i))
      by (symmetry; rewrite Nat2Z.inj_succ; apply size_wrap_small; lia).
    by rewrite Hrun.
Qed.

(** X26. simulateOptimal with room for every page: when the number of
    different pages is at most [num_frames] (converted to [size_t]), the
    page faults are exactly the different pages. *)
Theorem simulateOptimal_enough_frames references num_frames :
  Z.of_nat (distinct references) ≤ size_wrap num_frames →
  Z.of_nat (length references) ≤ INT_MAX →
  simulateOptimal references num_frames = Ret (Z.of_nat (distinct references)).
Proof.
  intros Hroom Hrefs.
  destruct (optimal_loop_exact num_frames references (length references) 0
              (OptimalState [] 0))
    as (st & Hrun & _ & _ & Hcount); [done|done|done| |].
  - split; [apply NoDup_nil_2|]. split; [done|done].
  - unfold simulateOptimal. change 0 with (Z.of_nat 0) at 1.
    rewrite Hrun. cbn. by rewrite Hcount.
Qed.

(** simulateOptimal without frames: with [num_frames] 0 the first
    reference is stored at [frames[0]] of the empty vector. *)
Lemma simulateOptimal_no_frames page references :
  simulateOptimal (page :: references) 0 = Abort undefined_behavior.
Proof.
  unfold simulateOptimal. cbn [length optimal_loop]. unfold optimal_step.
  by rewrite (at_index_lookup _ _ page) by (done || lia).
Qed.

(** ** No frames at all *)

(** X27. Without frames the simulators step outside their containers at
    the first reference: [simulateFIFO], [simulateLRU] and
    [simulateOptimal] with [num_frames] 0, [simulateClock] with
    [num_frames <= 0]. *)
Theorem no_frames_is_undefined (fuel : nat) page references num_frames :
  simulateFIFO (page :: references) 0 = Abort undefined_behavior
  ∧ simulateLRU (page :: references) 0 = Abort undefined_behavior
  ∧ simulateOptimal (page :: references) 0 = Abort undefined_behavior
  ∧ (num_frames ≤ 0 →
     simulateClock (S fuel) (page :: references) num_frames
     = Abort undefined_behavior).
Proof.
  split; [apply simulateFIFO_no_frames|].
  split; [apply simulateLRU_no_frames|].
  split; [apply simulateOptimal_no_frames|].
  apply simulateClock_no_frames.
Qed.

End SimulatorProperties.

(** ** The simulator's properties at work *)

Section PagingExamples.

Import Paging.

Lemma small_table_wf : table_wf small_table.
Proof. by vm_compute. Qed.

Lemma insert_isValid_witness :
  table_wf small_table ∧ 0 ≤ 7 ∧
  ∃ t', insert 7 small_table = Ret t'
        ∧ table_wf t'
        ∧ isValid 7 t' = Ret true
        ∧ ∀ other, 0 ≤ other → other ≠ 7 →
            isValid other t' = isValid other small_table.
Proof.
  split; [exact small_table_wf|]. split; [done|].
  apply (insert_isValid small_table 7); [exact small_table_wf|done].
Defined.

Lemma remove_isValid_witness :
  table_wf small_table ∧ 0 ≤ 4 ∧
  ∃ t', remove 4 small_table = Ret t'
        ∧ table_wf t'
        ∧ isValid 4 t' = Ret false
        ∧ ∀ other, 0 ≤ other → other ≠ 4 →
            isValid other t' = isValid other small_table.
Proof.
  split; [exact small_table_wf|]. split; [done|].
  apply (remove_isValid small_table 4); [exact small_table_wf|done].
Defined.

Lemma negative_page_is_undefined_witness :
  table_wf small_table ∧ INT_MIN ≤ -1 < 0 ∧ -1 mod table_size small_table ≠ 0 ∧
  insert (-1) small_table = Abort undefined_behavior
  ∧ remove (-1) small_table = Abort undefined_behavior
  ∧ isValid (-1) small_table = Abort undefined_behavior.
Proof.
  split; [exact small_table_wf|]. split; [by vm_compute|]. split; [by vm_compute|].
  apply (negative_page_is_undefined small_table (-1));
    [exact small_table_wf|by vm_compute..].
Defined.

Lemma fresh_table_is_empty_witness :
  0 < 10 ≤ INT_MAX ∧ 10 ≤ 1000 ∧ 0 ≤ 42 ∧
  ∃ t, construct 1000 10 = Ret t ∧ table_wf t ∧ isValid 42 t = Ret false.
Proof.
  split; [by vm_compute|]. split; [by vm_compute|]. split; [done|].
  apply (fresh_table_is_empty 1000 10 42); by vm_compute.
Defined.

Lemma simulateFIFO_bounds_witness :
  0 < size_wrap 3 ∧ Z.of_nat (length sample_references) ≤ INT_MAX ∧
  ∃ faults, simulateFIFO sample_references 3 = Ret faults
            ∧ Z.of_nat (distinct sample_references) ≤ faults
              ≤ Z.of_nat (length sample_references).
Proof.
  split; [by vm_compute|]. split; [by vm_compute|].
  apply (simulateFIFO_bounds sample_references 3); by vm_compute.
Defined.

Lemma simulateFIFO_enough_frames_witness :
  Z.of_nat (distinct sample_references) ≤ size_wrap 6 ∧
  Z.of_nat (length sample_references) ≤ INT_MAX ∧
  simulateFIFO sample_references 6 = Ret (Z.of_nat (distinct sample_references)).
Proof.
  split; [by vm_compute|]. split; [by vm_compute|].
  apply (simulateFIFO_enough_frames sample_references 6); by vm_compute.
Defined.

Lemma simulateLRU_bounds_witness :
  0 < size_wrap 3 ∧ Z.of_nat (length sample_references) ≤ INT_MAX ∧
  ∃ faults, simulateLRU sample_references 3 = Ret faults
            ∧ Z.of_nat (distinct sample_references) ≤ faults
              ≤ Z.of_nat (length sample_references).
Proof.
  split; [by vm_compute|]. split; [by vm_compute|].
  apply (simulateLRU_bounds sample_references 3); by vm_compute.
Defined.

Lemma simulateLRU_enough_frames_witness :
  Z.of_nat (distinct sample_references) ≤ size_wrap (-1) ∧
  Z.of_nat (length sample_references) ≤ INT_MAX ∧
  simulateLRU sample_references (-1)
  = Ret (Z.of_nat (distinct sample_references)).
Proof.
  split; [by vm_compute|]. split; [by vm_compute|].
  apply (simulateLRU_enough_frames sample_references (-1)); by vm_compute.
Defined.

Lemma simulateClock_bounds_witness :
  0 < 3 ≤ INT_MAX ∧ 3 < Z.of_nat 4 ∧
  Z.of_nat (length sample_references) ≤ INT_MAX ∧
  ∃ faults, simulateClock 4 sample_references 3 = Ret (Some faults)
            ∧ 0 ≤ faults ≤ Z.of_nat (length sample_references)
            ∧ (-1 ∉ sample_references →
               Z.of_nat (distinct sample_references) ≤ faults).
Proof.
  split; [by vm_compute|]. split; [by vm_compute|]. split; [by vm_compute|].
  apply (simulateClock_bounds 4 sample_references 3); by vm_compute.
Defined.

Lemma sample_references_real : -1 ∉ sample_references.
Proof.
  unfold sample_references. rewrite !not_elem_of_cons.
  split_and!; try done. apply not_elem_of_nil.
Qed.

Lemma simulateClock_enough_frames_witness :
  0 < 6 ≤ INT_MAX ∧ (-1 ∉ sample_references) ∧
  Z.of_nat (distinct sample_references) ≤ 6 ∧
  simulateClock 1 sample_references 6
  = Ret (Some (Z.of_nat (distinct sample_references))).
Proof.
  split; [by vm_compute|]. split; [exact sample_references_real|].
  split; [by vm_compute|].
  apply (simulateClock_enough_frames 0 sample_references 6);
    [by vm_compute|exact sample_references_real|by vm_compute].
Defined.

Lemma simulateClock_empty_mark_witness :
  0 < 2 ∧ simulateClock 3 (replicate 5 (-1)) 2 = Ret (Some 0).
Proof.
  split; [done|]. by apply (simulateClock_empty_mark 3 5 2).
Defined.

Lemma optimal_victim_witness :
  Z.of_nat (length sample_references) ≤ INT_MAX ∧
  0 ≤ 3 < Z.of_nat (length sample_references) ∧
  0 < Z.of_nat (length [7; 0; 1]) ≤ INT_MAX ∧
  ∃ r page,
    choose (length [7; 0; 1]) 0 3 sample_references [7; 0; 1] (to_int 3) (-1)
    = Ret r
    ∧ [7; 0; 1] !! Z.to_nat r = Some page
    ∧ 0 ≤ r < Z.of_nat (length [7; 0; 1])
    ∧ (unused_after sample_references 3 page
       ∨ ∃ next, next_used_at sample_references 3 next page
                 ∧ ∀ other, other ∈ [7; 0; 1] →
                     used_by sample_references 3 next other).
Proof.
  split; [by vm_compute|]. split; [by vm_compute|]. split; [by vm_compute|].
  apply (optimal_victim sample_references [7; 0; 1] 3); by vm_compute.
Defined.

Lemma simulateOptimal_bounds_witness :
  0 < size_wrap 3 ∧ Z.of_nat (length sample_references) ≤ INT_MAX ∧
  ∃ faults, simulateOptimal sample_references 3 = Ret faults
            ∧ Z.of_nat (distinct sample_references) ≤ faults
              ≤ Z.of_nat (length sample_references).
Proof.
  split; [by vm_compute|]. split; [by vm_compute|].
  apply (simulateOptimal_bounds sample_references 3); by vm_compute.
Defined.

Lemma simulateOptimal_enough_frames_witness :
  Z.of_nat (distinct sample_references) ≤ size_wrap 6 ∧
  Z.of_nat (length sample_references) ≤ INT_MAX ∧
  simulateOptimal sample_references 6
  = Ret (Z.of_nat (distinct sample_references)).
Proof.
  split; [by vm_compute|]. split; [by vm_compute|].
  apply (simulateOptimal_enough_frames sample_references 6); by vm_compute.
Defined.

Lemma no_frames_is_undefined_witness :
  -2 ≤ 0 ∧
  simulateFIFO (5 :: sample_references) 0 = Abort undefined_behavior
  ∧ simulateLRU (5 :: sample_references) 0 = Abort undefined_behavior
  ∧ simulateOptimal (5 :: sample_references) 0 = Abort undefined_behavior
  ∧ simulateClock 1 (5 :: sample_references) (-2) = Abort undefined_behavior.
Proof.
  assert (-2 ≤ 0) as Hn by done.
  split; [exact Hn|].
  destruct (no_frames_is_undefined 0 5 sample_references (-2))
    as (Hfifo & Hlru & Hopt & Hclock).
  split; [exact Hfifo|]. split; [exact Hlru|]. split; [exact Hopt|].
  exact (Hclock Hn).
Defined.

End PagingExamples.
